(** * ssosync: reconciliation engine of [internal/sync.go]

    A shallow embedding of the Google -> AWS SSO synchronisation code:
    the filter policy ([ignoreUser], [ignoreGroup], [includeGroup]), the
    diff engine ([getUserOperations], [getGroupOperations],
    [getGroupUsersOperations]), the snapshot collectors
    ([getGoogleGroupsAndUsers], [getAWSGroupsAndUsers]) and the three entry
    points [SyncUsers], [SyncGroups] and [SyncGroupsUsers].

    Go maps are [gmap]s, Go slices are lists, the two remote clients are
    interfaces (type classes) over an abstract world, and every client call
    is recorded in a log so that statements about "which calls are issued,
    in which order" can be made. *)

From stdpp Require Import gmap strings list fin_maps.

Open Scope string_scope.
Open Scope list_scope.

(** ** Data model *)

(** [aws.User] and [aws.Group]: the fields of the SCIM records that
    [sync.go] reads or writes. *)
Module aws.

Record User := mkUser {
  ID : string;
  Username : string;
  GivenName : string;
  FamilyName : string;
  Active : bool
}.

Record Group := mkGroup {
  GID : string;
  DisplayName : string
}.

(** Modelled from the spec: the constructor [aws.NewUser] lives in the
    package [internal/aws], which is not part of the sources at hand.  It
    builds a record without identifier whose username is the e-mail. *)
Definition NewUser (firstName lastName email : string) (active : bool) : User :=
  mkUser "" email firstName lastName active.

(** Modelled from the spec: [aws.UpdateUser] of [internal/aws] is
    [NewUser] together with the identifier of the record to replace. *)
Definition UpdateUser (id firstName lastName email : string) (active : bool) : User :=
  mkUser id email firstName lastName active.

(** Modelled from the spec: [aws.NewGroup] of [internal/aws] builds a
    group without identifier from its display name. *)
Definition NewGroup (displayName : string) : Group :=
  mkGroup "" displayName.

#[global] Instance User_eq_dec : EqDecision User.
Proof. solve_decision. Defined.

#[global] Instance Group_eq_dec : EqDecision Group.
Proof. solve_decision. Defined.

End aws.

(** [admin.User], [admin.Group] and [admin.Member] of the Google directory
    API, again restricted to the fields [sync.go] touches. *)
Module admin.

Record User := mkUser {
  PrimaryEmail : string;
  GivenName : string;
  FamilyName : string;
  Suspended : bool
}.

Record Group := mkGroup {
  Email : string;
  Name : string
}.

Record Member := mkMember {
  MEmail : string;
  Type_ : string
}.

#[global] Instance User_eq_dec : EqDecision User.
Proof. solve_decision. Defined.

#[global] Instance Group_eq_dec : EqDecision Group.
Proof. solve_decision. Defined.

#[global] Instance Member_eq_dec : EqDecision Member.
Proof. solve_decision. Defined.

End admin.

(** [config.Config]: the three lists the filter policy consults. *)
Record Config := mkConfig {
  IgnoreUsers : list string;
  IgnoreGroups : list string;
  IncludeGroups : list string
}.

(** ** Filter policy *)

(** The three predicates are the same loop: return [true] at the first
    entry equal to [name], [false] when the list is exhausted. *)
Fixpoint listed (l : list string) (name : string) : bool :=
  match l with
  | [] => false
  | g :: l' => if decide (g = name) then true else listed l' name
  end.

Definition ignoreUser (cfg : Config) (name : string) : bool :=
  listed (IgnoreUsers cfg) name.

Definition ignoreGroup (cfg : Config) (name : string) : bool :=
  listed (IgnoreGroups cfg) name.

Definition includeGroup (cfg : Config) (name : string) : bool :=
  listed (IncludeGroups cfg) name.

(** The guard of the group loop of [SyncGroups]:
    [if s.ignoreGroup(g.Email) || !s.includeGroup(g.Email) { continue }]. *)
Definition SyncGroups_skips (cfg : Config) (email : string) : bool :=
  ignoreGroup cfg email || negb (includeGroup cfg email).

(** ** Diff engine *)

(** [awsMap[awsUser.Username] = awsUser] for every user, in order: a later
    entry with the same key overwrites an earlier one. *)
Definition awsUserMap (awsUsers : list aws.User) : gmap string aws.User :=
  foldl (λ m u, <[aws.Username u := u]> m) ∅ awsUsers.

(** [googleMap[gUser.PrimaryEmail] = struct{}{}]. *)
Definition googleUserSet (googleUsers : list admin.User) : gset string :=
  foldl (λ s u, {[admin.PrimaryEmail u]} ∪ s) ∅ googleUsers.

(** The four result slices of [getUserOperations]. *)
Record UserOps := mkUserOps {
  uo_add : list aws.User;
  uo_delete : list aws.User;
  uo_update : list aws.User;
  uo_equals : list aws.User
}.

(** The condition under which a user found on both sides is rewritten. *)
Definition userMismatch (awsUser : aws.User) (gUser : admin.User) : bool :=
  bool_decide (aws.Active awsUser = admin.Suspended gUser)
  || negb (bool_decide (aws.GivenName awsUser = admin.GivenName gUser))
  || negb (bool_decide (aws.FamilyName awsUser = admin.FamilyName gUser)).

(** The target record built from a source user. *)
Definition fromGoogle (gUser : admin.User) : aws.User :=
  aws.NewUser (admin.GivenName gUser) (admin.FamilyName gUser)
              (admin.PrimaryEmail gUser) (negb (admin.Suspended gUser)).

(** First loop over [googleUsers]: one step appends to [add], [update] or
    [equals]. *)
Definition userOpsStep (awsMap : gmap string aws.User)
    (acc : list aws.User * list aws.User * list aws.User) (gUser : admin.User)
    : list aws.User * list aws.User * list aws.User :=
  let '(add, update, equals) := acc in
  match awsMap !! admin.PrimaryEmail gUser with
  | Some awsUser =>
      if userMismatch awsUser gUser
      then (add, update ++ [fromGoogle gUser], equals)
      else (add, update, equals ++ [awsUser])
  | None => (add ++ [fromGoogle gUser], update, equals)
  end.

(** Second loop over [awsUsers]: one step appends to [delete]. *)
Definition userDelStep (googleMap : gset string)
    (del : list aws.User) (awsUser : aws.User) : list aws.User :=
  if decide (aws.Username awsUser ∈ googleMap) then del
  else del ++ [aws.NewUser (aws.GivenName awsUser) (aws.FamilyName awsUser)
                           (aws.Username awsUser) (aws.Active awsUser)].

Definition getUserOperations (awsUsers : list aws.User)
    (googleUsers : list admin.User) : UserOps :=
  let awsMap := awsUserMap awsUsers in
  let googleMap := googleUserSet googleUsers in
  let '(add, update, equals) :=
    foldl (userOpsStep awsMap) ([], [], []) googleUsers in
  let delete := foldl (userDelStep googleMap) [] awsUsers in
  mkUserOps add delete update equals.

(** [getGroupOperations]: the same scheme keyed by display name, without an
    update case. *)
Definition awsGroupMap (awsGroups : list aws.Group) : gmap string aws.Group :=
  foldl (λ m g, <[aws.DisplayName g := g]> m) ∅ awsGroups.

Definition googleGroupSet (googleGroups : list admin.Group) : gset string :=
  foldl (λ s g, {[admin.Name g]} ∪ s) ∅ googleGroups.

Record GroupOps := mkGroupOps {
  go_add : list aws.Group;
  go_delete : list aws.Group;
  go_equals : list aws.Group
}.

Definition groupOpsStep (awsMap : gmap string aws.Group)
    (acc : list aws.Group * list aws.Group) (gGroup : admin.Group)
    : list aws.Group * list aws.Group :=
  let '(add, equals) := acc in
  match awsMap !! admin.Name gGroup with
  | Some awsGroup => (add, equals ++ [awsGroup])
  | None => (add ++ [aws.NewGroup (admin.Name gGroup)], equals)
  end.

Definition groupDelStep (googleMap : gset string)
    (del : list aws.Group) (awsGroup : aws.Group) : list aws.Group :=
  if decide (aws.DisplayName awsGroup ∈ googleMap) then del
  else del ++ [aws.NewGroup (aws.DisplayName awsGroup)].

Definition getGroupOperations (awsGroups : list aws.Group)
    (googleGroups : list admin.Group) : GroupOps :=
  let awsMap := awsGroupMap awsGroups in
  let googleMap := googleGroupSet googleGroups in
  let '(add, equals) := foldl (groupOpsStep awsMap) ([], []) googleGroups in
  let delete := foldl (groupDelStep googleMap) [] awsGroups in
  mkGroupOps add delete equals.

(** A Go [range] over a map visits every entry once, in an order the
    language leaves open; the model enumerates the entries with
    [map_to_list]. *)
Definition rangeMap {V} (m : gmap string V) : list (string * V) :=
  map_to_list m.

(** Reading a slice out of a map of slices: a missing key gives [nil]. *)
Definition sliceAt {V} (m : gmap string (list V)) (k : string) : list V :=
  default [] (m !! k).

(** [mbG]: for every Google group the set of its members' primary e-mails.
    One group: a fresh inner map, then one entry per member. *)
Definition memberSetsStep (mbG : gmap string (gset string))
    (entry : string * list admin.User) : gmap string (gset string) :=
  let '(gGroupName, gGroupUsers) := entry in
  foldl (λ mbG gUser,
           <[gGroupName :=
               {[admin.PrimaryEmail gUser]} ∪ default ∅ (mbG !! gGroupName)]> mbG)
        (<[gGroupName := ∅]> mbG) gGroupUsers.

Definition memberSets (gGroupsUsers : gmap string (list admin.User))
    : gmap string (gset string) :=
  foldl memberSetsStep ∅ (rangeMap gGroupsUsers).

(** [_, found := mbG[group][user]]: reading a missing inner map finds
    nothing. *)
Definition inMemberSets (mbG : gmap string (gset string)) (group user : string) : bool :=
  match mbG !! group with
  | Some s => bool_decide (user ∈ s)
  | None => false
  end.

Definition groupUsersStep (mbG : gmap string (gset string)) (awsGroupName : string)
    (acc : gmap string (list aws.User) * gmap string (list aws.User))
    (awsUser : aws.User)
    : gmap string (list aws.User) * gmap string (list aws.User) :=
  let '(delete, equals) := acc in
  if inMemberSets mbG awsGroupName (aws.Username awsUser)
  then (delete, <[awsGroupName := sliceAt equals awsGroupName ++ [awsUser]]> equals)
  else (<[awsGroupName := sliceAt delete awsGroupName ++ [awsUser]]> delete, equals).

Definition groupUsersGroup (mbG : gmap string (gset string))
    (acc : gmap string (list aws.User) * gmap string (list aws.User))
    (entry : string * list aws.User)
    : gmap string (list aws.User) * gmap string (list aws.User) :=
  let '(awsGroupName, awsGroupUsers) := entry in
  foldl (groupUsersStep mbG awsGroupName) acc awsGroupUsers.

(** Returns the pair (delete, equals). *)
Definition getGroupUsersOperations (gGroupsUsers : gmap string (list admin.User))
    (awsGroupsUsers : gmap string (list aws.User))
    : gmap string (list aws.User) * gmap string (list aws.User) :=
  let mbG := memberSets gGroupsUsers in
  foldl (groupUsersGroup mbG) (∅, ∅) (rangeMap awsGroupsUsers).

(** ** Errors and client calls *)

(** The errors [sync.go] tells apart: the two sentinels of the AWS client,
    an HTTP status error (what [errors.As] extracts into [ErrHttpNotOK]),
    and anything else. *)
Inductive error :=
| ErrUserNotFound
| ErrGroupNotFound
| ErrHttpNotOK (StatusCode : Z)
| ErrOther (msg : string).

#[global] Instance error_eq_dec : EqDecision error.
Proof. solve_decision. Defined.

(** The methods of the two client interfaces ([google.Client] and
    [aws.Client]) that [sync.go] invokes, with their arguments. *)
Inductive Call :=
| GoogleGetUsers (query : string)
| GoogleGetDeletedUsers
| GoogleGetGroups (query : string)
| GoogleGetGroupMembers (g : admin.Group)
| FindUserByEmail (email : string)
| CreateUser (u : aws.User)
| UpdateUser (u : aws.User)
| DeleteUser (u : aws.User)
| GetUsers
| GetGroups
| FindGroupByDisplayName (name : string)
| CreateGroup (g : aws.Group)
| DeleteGroup (g : aws.Group)
| IsUserInGroup (u : aws.User) (g : aws.Group)
| AddUserToGroup (u : aws.User) (g : aws.Group)
| RemoveUserFromGroup (u : aws.User) (g : aws.Group).

#[global] Instance Call_eq_dec : EqDecision Call.
Proof. solve_decision. Defined.

(** What a method returns next to its [error]. *)
Definition ans (c : Call) : Type :=
  match c with
  | GoogleGetUsers _ | GoogleGetDeletedUsers => list admin.User
  | GoogleGetGroups _ => list admin.Group
  | GoogleGetGroupMembers _ => list admin.Member
  | FindUserByEmail _ | CreateUser _ | UpdateUser _ => aws.User
  | GetUsers => list aws.User
  | GetGroups => list aws.Group
  | FindGroupByDisplayName _ | CreateGroup _ => aws.Group
  | IsUserInGroup _ _ => bool
  | DeleteUser _ | DeleteGroup _ | AddUserToGroup _ _
  | RemoveUserFromGroup _ _ => unit
  end.

(** The calls that write to the target store. *)
Definition mutation (c : Call) : bool :=
  match c with
  | CreateUser _ | UpdateUser _ | DeleteUser _ | CreateGroup _
  | DeleteGroup _ | AddUserToGroup _ _ | RemoveUserFromGroup _ _ => true
  | _ => false
  end.

(** The two remote directories together form a world [W]; a client answers
    a call with a value or an error and may change the world.  A method
    returns either a value or an error, never both. *)
Class Client (W : Type) := handle : ∀ c : Call, W → W * (error + ans c).

(** One log entry per call made: the call and the error it came back with,
    if any. *)
Definition Event : Type := Call * option error.

Definition errOf {A} (r : error + A) : option error :=
  match r with inl e => Some e | inr _ => None end.

(** The only error [SyncGroupsUsers] does not return: a [CreateUser] that
    came back with status 409. *)
Definition swallowed (ev : Event) : bool :=
  match ev with
  | (CreateUser _, Some (ErrHttpNotOK code)) => bool_decide (code = 409%Z)
  | _ => false
  end.

(** An entry that is no error, or a swallowed one. *)
Definition benign (ev : Event) : Prop :=
  ev.2 = None ∨ swallowed ev = true.

Section Sync.

Context {W : Type} `{!Client W}.

(** The [syncGSuite] object: the clients (here: the world they talk
    to, and the log of the calls made), and the [users] map that
    [SyncUsers] fills and [SyncGroups] reads.  The configuration is
    read-only and passed separately. *)
Record State := mkState {
  world : W;
  log : list Event;
  users : gmap string aws.User
}.

(** A method of [syncGSuite] is a state transformer that ends with an
    error or a value.  The state is kept when it fails: calls already
    made are not undone. *)
Definition M (A : Type) : Type := State → State * (error + A).

#[export] Instance M_ret : MRet M := λ A a s, (s, inr a).

#[export] Instance M_bind : MBind M := λ A B f m s,
  match m s with
  | (s', inl e) => (s', inl e)
  | (s', inr a) => f a s'
  end.

(** [return err]. *)
Definition raise {A} (e : error) : M A := λ s, (s, inl e).

(** Invoke a client method: the world answers, the call is logged, and
    the (value, err) pair is handed to the caller. *)
Definition call (c : Call) : M (error + ans c) := λ s,
  let '(w', r) := handle c (world s) in
  (mkState w' (log s ++ [(c, errOf r)]) (users s), inr r).

(** [if err != nil { return err }]. *)
Definition check {A} (r : error + A) : M A :=
  match r with
  | inl e => raise e
  | inr a => mret a
  end.

(** A call whose error is returned at once. *)
Definition try (c : Call) : M (ans c) := call c ≫= check.

(** [s.users[k] = u]. *)
Definition setUser (k : string) (u : aws.User) : M unit := λ s,
  (mkState (world s) (log s) (<[k := u]> (users s)), inr tt).

Definition getUsersMap : M (gmap string aws.User) := λ s, (s, inr (users s)).

(** A [for ... range] loop over a slice that carries variables of the
    enclosing function through its iterations; a [return err] in the body
    leaves the loop. *)
Fixpoint foldM {A B} (body : B → A → M B) (l : list A) (b : B) : M B :=
  match l with
  | [] => mret b
  | x :: l' => b' ← body b x; foldM body l' b'
  end.

Definition forEach {A} (l : list A) (body : A → M unit) : M unit :=
  foldM (λ _ x, body x) l tt.

End Sync.

Arguments State W : clear implicits.
Arguments M W A : clear implicits.

(** ** The synchronisation methods *)

Section Methods.

Context {W : Type} `{!Client W} (cfg : Config).

Local Abbreviation M := (M W).

(** *** Snapshot collection *)

(** One member of one group in [getGoogleGroupsAndUsers]: skip ignored
    and group addresses, look the address up, keep the first hit. *)
Definition collectMember
    (acc : list admin.User * gmap string admin.User) (m : admin.Member)
    : M (list admin.User * gmap string admin.User) :=
  let '(membersUsers, gUniqUsers) := acc in
  if ignoreUser cfg (admin.MEmail m) then mret (membersUsers, gUniqUsers)
  else if decide (admin.Type_ m = "GROUP") then mret (membersUsers, gUniqUsers)
  else
    u ← try (GoogleGetUsers ("email:" +:+ admin.MEmail m));
    match u with
    | [] => mret (membersUsers, gUniqUsers)
    | u0 :: _ =>
        mret (membersUsers ++ [u0],
              match gUniqUsers !! admin.MEmail m with
              | Some _ => gUniqUsers
              | None => <[admin.MEmail m := u0]> gUniqUsers
              end)
    end.

Definition collectGroup
    (acc : gmap string (list admin.User) * gmap string admin.User)
    (g : admin.Group)
    : M (gmap string (list admin.User) * gmap string admin.User) :=
  let '(gGroupsUsers, gUniqUsers) := acc in
  if ignoreGroup cfg (admin.Email g) then mret (gGroupsUsers, gUniqUsers)
  else
    groupMembers ← try (GoogleGetGroupMembers g);
    '(membersUsers, gUniqUsers) ←
      foldM collectMember groupMembers ([], gUniqUsers);
    mret (<[admin.Name g := membersUsers]> gGroupsUsers, gUniqUsers).

(** The returned user slice is filled by a [range] over [gUniqUsers]. *)
Definition getGoogleGroupsAndUsers (googleGroups : list admin.Group)
    : M (list admin.User * gmap string (list admin.User)) :=
  '(gGroupsUsers, gUniqUsers) ← foldM collectGroup googleGroups (∅, ∅);
  let gUsers := foldl (λ gUsers '(_, user), gUsers ++ [user]) [] (rangeMap gUniqUsers) in
  mret (gUsers, gGroupsUsers).

Definition probeMember (awsGroup : aws.Group)
    (users : list aws.User) (user : aws.User) : M (list aws.User) :=
  found ← try (IsUserInGroup user awsGroup);
  if (found : bool) then mret (users ++ [user]) else mret users.

Definition getAWSGroupsAndUsers (awsGroups : list aws.Group)
    (awsUsers : list aws.User) : M (gmap string (list aws.User)) :=
  foldM (λ awsGroupsUsers awsGroup,
           users ← foldM (probeMember awsGroup) awsUsers [];
           mret (<[aws.DisplayName awsGroup := users]> awsGroupsUsers))
        awsGroups ∅.

(** *** The six steps of [SyncGroupsUsers] *)

(** 1) delete users in aws, these were deleted in google *)
Definition deleteUsers (delAWSUsers : list aws.User) : M unit :=
  forEach delAWSUsers (λ awsUser,
    awsUserFull ← try (FindUserByEmail (aws.Username awsUser));
    try (DeleteUser awsUserFull)).

(** 2) update users in aws, these were updated in google *)
Definition updateUsers (updateAWSUsers : list aws.User) : M unit :=
  forEach updateAWSUsers (λ awsUser,
    awsUserFull ← try (FindUserByEmail (aws.Username awsUser));
    _ ← try (UpdateUser awsUserFull);
    mret tt).

(** [errors.As(err, &errHttp) && errHttp.StatusCode == 409] *)
Definition isConflict (err : error) : bool :=
  match err with
  | ErrHttpNotOK code => bool_decide (code = 409%Z)
  | _ => false
  end.

(** 3) add users in aws, these were added in google *)
Definition addUser (awsUser : aws.User) : M unit :=
  r ← call (CreateUser awsUser);
  match r with
  | inl err => if isConflict err then mret tt else raise err
  | inr _ => mret tt
  end.

Definition addUsers (addAWSUsers : list aws.User) : M unit :=
  forEach addAWSUsers addUser.

(** 4) add groups in aws and add its members, these were added in google *)
Definition addGroups (googleGroupsUsers : gmap string (list admin.User))
    (addAWSGroups : list aws.Group) : M unit :=
  forEach addAWSGroups (λ awsGroup,
    _ ← try (CreateGroup awsGroup);
    forEach (sliceAt googleGroupsUsers (aws.DisplayName awsGroup)) (λ googleUser,
      awsUserFull ← try (FindUserByEmail (admin.PrimaryEmail googleUser));
      try (AddUserToGroup awsUserFull awsGroup))).

(** 5) validate equals aws an google groups members *)
Definition equalGroups (googleGroupsUsers : gmap string (list admin.User))
    (deleteUsersFromGroup : gmap string (list aws.User))
    (equalAWSGroups : list aws.Group) : M unit :=
  forEach equalAWSGroups (λ awsGroup,
    forEach (sliceAt googleGroupsUsers (aws.DisplayName awsGroup)) (λ googleUser,
      awsUserFull ← try (FindUserByEmail (admin.PrimaryEmail googleUser));
      b ← try (IsUserInGroup awsUserFull awsGroup);
      if (b : bool) then mret tt
      else try (AddUserToGroup awsUserFull awsGroup));;
    forEach (sliceAt deleteUsersFromGroup (aws.DisplayName awsGroup)) (λ awsUser,
      try (RemoveUserFromGroup awsUser awsGroup))).

(** 6) delete groups in aws, these were deleted in google *)
Definition deleteGroups (delAWSGroups : list aws.Group) : M unit :=
  forEach delAWSGroups (λ awsGroup,
    awsGroupFull ← try (FindGroupByDisplayName (aws.DisplayName awsGroup));
    try (DeleteGroup awsGroupFull)).

(** Everything [SyncGroupsUsers] collects before it changes anything. *)
Record Snapshot := mkSnapshot {
  googleGroups : list admin.Group;
  googleUsers : list admin.User;
  googleGroupsUsers : gmap string (list admin.User);
  awsGroups : list aws.Group;
  awsUsers : list aws.User;
  awsGroupsUsers : gmap string (list aws.User)
}.

Definition collect (query : string) : M Snapshot :=
  googleGroups ← try (GoogleGetGroups query);
  let filteredGoogleGroups :=
    foldl (λ filtered g,
             if ignoreGroup cfg (admin.Email g) then filtered
             else filtered ++ [g]) [] googleGroups in
  let googleGroups := filteredGoogleGroups in
  '(googleUsers, googleGroupsUsers) ← getGoogleGroupsAndUsers googleGroups;
  awsGroups ← try GetGroups;
  awsUsers ← try GetUsers;
  awsGroupsUsers ← getAWSGroupsAndUsers awsGroups awsUsers;
  mret (mkSnapshot googleGroups googleUsers googleGroupsUsers
                   awsGroups awsUsers awsGroupsUsers).

(** The part of [SyncGroupsUsers] after the snapshots are taken. *)
Definition applyChanges (sn : Snapshot) : M unit :=
  let uo := getUserOperations (awsUsers sn) (googleUsers sn) in
  let go := getGroupOperations (awsGroups sn) (googleGroups sn) in
  deleteUsers (uo_delete uo);;
  updateUsers (uo_update uo);;
  addUsers (uo_add uo);;
  addGroups (googleGroupsUsers sn) (go_add go);;
  let '(deleteUsersFromGroup, _) :=
    getGroupUsersOperations (googleGroupsUsers sn) (awsGroupsUsers sn) in
  equalGroups (googleGroupsUsers sn) deleteUsersFromGroup (go_equals go);;
  deleteGroups (go_delete go).

Definition SyncGroupsUsers (query : string) : M unit :=
  collect query ≫= applyChanges.

(** *** The alternate method: [SyncUsers], then [SyncGroups] *)

(** One deleted Google user: look it up in AWS, delete it if it is
    there. *)
Definition dropDeleted (u : admin.User) : M unit :=
  r ← call (FindUserByEmail (admin.PrimaryEmail u));
  match r with
  | inl ErrUserNotFound => mret tt
  | inl err => raise err
  | inr uu => try (DeleteUser uu)
  end.

(** One active Google user: [uu, _ := s.aws.FindUserByEmail(...)]
    drops the error; a user that is found is recorded and updated only
    under [uu.Active == u.Suspended], a user that is not found is
    created. *)
Definition syncUser (u : admin.User) : M unit :=
  if ignoreUser cfg (admin.PrimaryEmail u) then mret tt
  else
    r ← call (FindUserByEmail (admin.PrimaryEmail u));
    match r with
    | inr uu =>
        setUser (aws.Username uu) uu;;
        if decide (aws.Active uu = admin.Suspended u)
        then
          _ ← try (UpdateUser (aws.UpdateUser (aws.ID uu) (admin.GivenName u)
                                 (admin.FamilyName u) (admin.PrimaryEmail u)
                                 (negb (admin.Suspended u))));
          mret tt
        else mret tt
    | inl _ =>
        uu ← try (CreateUser (fromGoogle u));
        setUser (aws.Username uu) uu
    end.

Definition SyncUsers (query : string) : M unit :=
  deletedUsers ← try GoogleGetDeletedUsers;
  forEach deletedUsers dropDeleted;;
  googleUsers ← try (GoogleGetUsers query);
  forEach googleUsers syncUser.

(** [FindGroupByDisplayName] in [SyncGroups]: [ErrGroupNotFound] is not
    an error, the group is then created. *)
Definition findOrCreateGroup (email : string) : M aws.Group :=
  r ← call (FindGroupByDisplayName email);
  match r with
  | inr gg => mret gg
  | inl ErrGroupNotFound => try (CreateGroup (aws.NewGroup email))
  | inl err => raise err
  end.

(** One user of [s.users] against one group. *)
Definition syncMembership (group : aws.Group)
    (memberList : gmap string admin.Member) (u : aws.User) : M unit :=
  b ← try (IsUserInGroup u group);
  match memberList !! aws.Username u with
  | Some _ => if (b : bool) then mret tt else try (AddUserToGroup u group)
  | None => if (b : bool) then try (RemoveUserFromGroup u group) else mret tt
  end.

(** One Google group.  The map [correlatedGroups] of the source is written
    and never read; it is left out. *)
Definition syncGroup (g : admin.Group) : M unit :=
  if SyncGroups_skips cfg (admin.Email g) then mret tt
  else
    group ← findOrCreateGroup (admin.Email g);
    groupMembers ← try (GoogleGetGroupMembers g);
    users ← getUsersMap;
    let memberList :=
      foldl (λ memberList m,
               match users !! admin.MEmail m with
               | Some _ => <[admin.MEmail m := m]> memberList
               | None => memberList
               end) (∅ : gmap string admin.Member) groupMembers in
    forEach (rangeMap users) (λ '(_, u), syncMembership group memberList u).

Definition SyncGroups (query : string) : M unit :=
  googleGroups ← try (GoogleGetGroups query);
  forEach googleGroups syncGroup.

End Methods.

Arguments Snapshot : clear implicits.

(** ** A table-driven client *)

(** A client that answers every call from a fixed table, whatever was
    called before: enough to replay any exchange in which no call is made
    twice with different answers. *)
Record Table := mkTable { answer : ∀ c : Call, error + ans c }.

#[global] Instance Table_client : Client Table := λ c t, (t, answer t c).

(** The state a run starts in: nothing logged, [users] empty. *)
Definition start {W} (w : W) : State W := mkState w [] ∅.

(** ** Scenarios *)

(** A pair of directories frozen at one moment, as a table of answers. *)
Record Directory := mkDirectory {
  d_groups : list admin.Group;
  d_members : string → list admin.Member;
  d_lookup : string → list admin.User;
  d_awsUsers : list aws.User;
  d_awsGroups : list aws.Group;
  d_find : string → error + aws.User;
  d_isMember : string → string → bool;
  d_create : aws.User → error + aws.User
}.

Definition findIn (l : list aws.User) (email : string) : error + aws.User :=
  match filter (λ u, aws.Username u = email) l with
  | u :: _ => inr u
  | [] => inl ErrUserNotFound
  end.

Definition findGroupIn (l : list aws.Group) (name : string) : error + aws.Group :=
  match filter (λ g, aws.DisplayName g = name) l with
  | g :: _ => inr g
  | [] => inl ErrGroupNotFound
  end.

Definition serve (d : Directory) : Table :=
  mkTable (λ c,
    match c return error + ans c with
    | GoogleGetUsers q => inr (d_lookup d q)
    | GoogleGetDeletedUsers => inr []
    | GoogleGetGroups _ => inr (d_groups d)
    | GoogleGetGroupMembers g => inr (d_members d (admin.Email g))
    | FindUserByEmail email => d_find d email
    | CreateUser u => d_create d u
    | UpdateUser u => inr u
    | DeleteUser _ => inr tt
    | GetUsers => inr (d_awsUsers d)
    | GetGroups => inr (d_awsGroups d)
    | FindGroupByDisplayName name => findGroupIn (d_awsGroups d) name
    | CreateGroup g => inr g
    | DeleteGroup _ => inr tt
    | IsUserInGroup u g => inr (d_isMember d (aws.Username u) (aws.DisplayName g))
    | AddUserToGroup _ _ => inr tt
    | RemoveUserFromGroup _ _ => inr tt
    end).

Definition noLists : Config := mkConfig [] [] [].

Definition eng : admin.Group := admin.mkGroup "eng@x.com" "eng".
Definition engAws : aws.Group := aws.mkGroup "g-1" "eng".

Definition ann : admin.User := admin.mkUser "a@x.com" "Ann" "Lee" false.
Definition annAws : aws.User := aws.mkUser "u-1" "a@x.com" "Ann" "Lee" true.
Definition bobAws : aws.User := aws.mkUser "u-2" "b@x.com" "Bob" "Ray" true.
Definition cy : admin.User := admin.mkUser "c@x.com" "Cy" "Dee" true.
Definition cyAws : aws.User := aws.mkUser "u-3" "c@x.com" "Cy" "Dee" true.

(** Cy is active at the target and suspended at the source. *)
Definition suspendedAtSource : Directory :=
  mkDirectory [eng]
    (λ _, [admin.mkMember "c@x.com" "USER"])
    (λ q, if decide (q = "email:c@x.com") then [cy] else [])
    [cyAws] [engAws] (findIn [cyAws]) (λ _ _, true) inr.

(** Bob was listed by the target but is gone when he is looked up again;
    Ann is new at the source. *)
Definition staleListing : Directory :=
  mkDirectory [eng]
    (λ _, [admin.mkMember "a@x.com" "USER"])
    (λ q, if decide (q = "email:a@x.com") then [ann] else [])
    [bobAws] [] (λ _, inl ErrUserNotFound) (λ _ _, false) inr.

(** Ann is a member of the group under her primary address and under a
    second address of hers. *)
Definition twoAddresses : Directory :=
  mkDirectory [eng]
    (λ _, [admin.mkMember "a@x.com" "USER"; admin.mkMember "ann@x.com" "USER"])
    (λ q, if decide (q = "email:a@x.com") then [ann]
          else if decide (q = "email:ann@x.com") then [ann] else [])
    [] [] (λ _, inl ErrUserNotFound) (λ _ _, false) inr.

(** Ann is not listed by the target, but exists by the time she is
    created. *)
Definition createdMeanwhile : Directory :=
  mkDirectory [eng]
    (λ _, [admin.mkMember "a@x.com" "USER"])
    (λ q, if decide (q = "email:a@x.com") then [ann] else [])
    [] [] (findIn [annAws]) (λ _ _, false)
    (λ _, inl (ErrHttpNotOK 409)).

(** Di is active on both sides, under another given name at the source. *)
Definition renamedAtSource : Directory :=
  mkDirectory []
    (λ _, [])
    (λ _, [admin.mkUser "d@x.com" "Diana" "Fox" false])
    [aws.mkUser "u-4" "d@x.com" "Di" "Fox" true] []
    (findIn [aws.mkUser "u-4" "d@x.com" "Di" "Fox" true]) (λ _ _, false) inr.

(** ** Vocabulary of the statements *)

(** What one Google user contributes to [add], [update] and [equals], and
    one AWS user to [delete]: the loops of [getUserOperations] append
    exactly these. *)
Definition addOf (awsMap : gmap string aws.User) (gUser : admin.User) : option aws.User :=
  match awsMap !! admin.PrimaryEmail gUser with
  | None => Some (fromGoogle gUser)
  | Some _ => None
  end.

Definition updateOf (awsMap : gmap string aws.User) (gUser : admin.User) : option aws.User :=
  match awsMap !! admin.PrimaryEmail gUser with
  | Some awsUser => if userMismatch awsUser gUser then Some (fromGoogle gUser) else None
  | None => None
  end.

Definition equalOf (awsMap : gmap string aws.User) (gUser : admin.User) : option aws.User :=
  match awsMap !! admin.PrimaryEmail gUser with
  | Some awsUser => if userMismatch awsUser gUser then None else Some awsUser
  | None => None
  end.

Definition deleteOf (googleMap : gset string) (awsUser : aws.User) : option aws.User :=
  if decide (aws.Username awsUser ∈ googleMap) then None
  else Some (aws.NewUser (aws.GivenName awsUser) (aws.FamilyName awsUser)
                         (aws.Username awsUser) (aws.Active awsUser)).

(** The same for [getGroupOperations]. *)
Definition addGroupOf (awsMap : gmap string aws.Group) (gGroup : admin.Group)
    : option aws.Group :=
  match awsMap !! admin.Name gGroup with
  | None => Some (aws.NewGroup (admin.Name gGroup))
  | Some _ => None
  end.

Definition equalGroupOf (awsMap : gmap string aws.Group) (gGroup : admin.Group)
    : option aws.Group :=
  awsMap !! admin.Name gGroup.

Definition deleteGroupOf (googleMap : gset string) (awsGroup : aws.Group)
    : option aws.Group :=
  if decide (aws.DisplayName awsGroup ∈ googleMap) then None
  else Some (aws.NewGroup (aws.DisplayName awsGroup)).

(** Exactly one of a list of propositions holds. *)
Fixpoint exactlyOne (Ps : list Prop) : Prop :=
  match Ps with
  | [] => False
  | P :: Ps' => (P ∧ Forall not Ps') ∨ (¬ P ∧ exactlyOne Ps')
  end.

(** The snapshots of the scenarios: Ann exists at the source only, Bob at
    the target only, Cy on both sides but suspended at the source, Di on
    both sides and unchanged. *)
Definition sourceUsers : list admin.User :=
  [ admin.mkUser "a@x.com" "Ann" "Lee" false;
    admin.mkUser "c@x.com" "Cy" "Dee" true;
    admin.mkUser "d@x.com" "Di" "Fox" false ].

Definition targetUsers : list aws.User :=
  [ aws.mkUser "u-2" "b@x.com" "Bob" "Ray" true;
    aws.mkUser "u-3" "c@x.com" "Cy" "Dee" true;
    aws.mkUser "u-4" "d@x.com" "Di" "Fox" true ].

Definition sourceGroups : list admin.Group :=
  [ admin.mkGroup "eng@x.com" "eng"; admin.mkGroup "ops@x.com" "ops" ].

Definition targetGroups : list aws.Group :=
  [ aws.mkGroup "g-1" "ops"; aws.mkGroup "g-2" "old" ].

(** ** Vocabulary of the statements about runs *)

(** The calls a step of [SyncGroupsUsers] may make: reading is always
    allowed, each kind of write belongs to its step; step 0 is the
    collection of the snapshots. *)
Definition allowed (step : nat) (c : Call) : bool :=
  negb (mutation c) ||
  match step, c with
  | 1, DeleteUser _
  | 2, UpdateUser _
  | 3, CreateUser _
  | 4, CreateGroup _ | 4, AddUserToGroup _ _
  | 5, AddUserToGroup _ _ | 5, RemoveUserFromGroup _ _
  | 6, DeleteGroup _ => true
  | _, _ => false
  end.

(** A run that stops at its first error that is not swallowed: a
    successful run logged no such error, a failed run logged exactly one, as
    its last entry, and returns it. *)
Definition failsFast {A} (t : list Event) (r : error + A) : Prop :=
  match r with
  | inr _ => Forall benign t
  | inl e => ∃ t0 c, t = t0 ++ [(c, Some e)] ∧ Forall benign t0
                     ∧ swallowed (c, Some e) = false
  end.

Section Traces.

Context {W : Type} `{!Client W}.

(** The world after a sequence of calls, each applied to what the
    previous ones left. *)
Definition replay (w : W) (t : list Event) : W :=
  foldl (λ w ev, (handle ev.1 w).1) w t.

(** [m] changes the world by the calls it logs and by nothing else, and
    stops at its first error that is not swallowed. *)
Definition tracks {A} (m : M W A) : Prop :=
  ∀ s, ∃ t, log (m s).1 = log s ++ t
            ∧ world (m s).1 = replay (world s) t
            ∧ failsFast t (m s).2.

(** [m] only makes calls that satisfy [P]. *)
Definition emits {A} (P : Call → bool) (m : M W A) : Prop :=
  ∀ s, ∃ t, log (m s).1 = log s ++ t ∧ Forall (λ ev, P ev.1 = true) t.

(** The calls of [m] come in consecutive stretches, one per entry of
    [Ps], the calls of a stretch satisfying its entry. *)
Definition phased {A} (Ps : list (Call → bool)) (m : M W A) : Prop :=
  ∀ s, ∃ ts, log (m s).1 = log s ++ concat ts
             ∧ Forall2 (λ P t, Forall (λ ev : Event, P ev.1 = true) t) Ps ts.

End Traces.

(** ** Vocabulary of the further statements *)

(** Once Ann is created, Bob deleted and Cy suspended at the target, the
    diff of the scenario is empty. *)
Definition targetUsersConverged : list aws.User :=
  [ aws.mkUser "u-1" "a@x.com" "Ann" "Lee" true;
    aws.mkUser "u-3" "c@x.com" "Cy" "Dee" false;
    aws.mkUser "u-4" "d@x.com" "Di" "Fox" true ].


(** The membership probes of [getAWSGroupsAndUsers], group by group and
    user by user. *)
Definition probes (awsGroups : list aws.Group) (awsUsers : list aws.User) : list Call :=
  awsGroup ← awsGroups; awsUser ← awsUsers; [IsUserInGroup awsUser awsGroup].

(** A run that went through the calls [cs] without an error, or stopped at
    the first error, part of the way through [cs]. *)
Definition scripted {A} (cs : list Call) (t : list Event) (r : error + A) : Prop :=
  match r with
  | inr _ => t.*1 = cs ∧ Forall (λ ev, ev.2 = None) t
  | inl e => ∃ t0 c, t = t0 ++ [(c, Some e)] ∧ Forall (λ ev, ev.2 = None) t0
                     ∧ t.*1 `prefix_of` cs
  end.


(** If [m] returns, what it returns satisfies [Q]. *)
Definition ifReturning {A} (Q : A → Prop) (r : error + A) : Prop :=
  match r with inr a => Q a | inl _ => True end.

Section Judgements.

Context {W : Type} `{!Client W}.

(** [m] makes the calls [cs], in this order, up to its first error. *)
Definition follows {A} (cs : list Call) (m : M W A) : Prop :=
  ∀ s, ∃ t, log (m s).1 = log s ++ t ∧ scripted cs t (m s).2.

(** A set of worlds no call leads out of. *)
Definition stable (I : W → Prop) : Prop :=
  ∀ c w, I w → I (handle c w).1.

(** Started in a world of [I], [m] ends in a world of [I], and how it
    ends satisfies [Q]. *)
Definition yields {A} (I : W → Prop) (m : M W A) (Q : error + A → Prop) : Prop :=
  ∀ s, I (world s) → I (world (m s).1) ∧ Q (m s).2.

(** [m] only makes calls that satisfy [P]. *)
Definition issues {A} (P : Call → Prop) (m : M W A) : Prop :=
  ∀ s, ∃ t, log (m s).1 = log s ++ t ∧ Forall (λ ev, P ev.1) t.

(** [m] does not write [s.users]. *)
Definition keepsUsers {A} (m : M W A) : Prop :=
  ∀ s, users (m s).1 = users s.

End Judgements.

(** Every user of the map of unique users is stored under its own primary
    e-mail. *)
Definition keyedByEmail (gUniqUsers : gmap string admin.User) : Prop :=
  ∀ k u, gUniqUsers !! k = Some u → admin.PrimaryEmail u = k.

(** The calls [getGoogleGroupsAndUsers] may make: the members of a group
    that is not ignored, and the look-up of an address that is not
    ignored. *)
Definition collectorCall (cfg : Config) (c : Call) : Prop :=
  match c with
  | GoogleGetGroupMembers g => ignoreGroup cfg (admin.Email g) = false
  | GoogleGetUsers q =>
      ∃ address, q = "email:" +:+ address ∧ ignoreUser cfg address = false
  | _ => False
  end.


(** The state after one logged call. *)
Definition after {W} `{!Client W} (c : Call) (s : State W) : State W :=
  mkState (handle c (world s)).1
          (log s ++ [(c, errOf (handle c (world s)).2)])
          (users s).

(** The methods [SyncUsers] calls. *)
Definition userCall (c : Call) : bool :=
  match c with
  | GoogleGetDeletedUsers | GoogleGetUsers _ | FindUserByEmail _
  | CreateUser _ | UpdateUser _ | DeleteUser _ => true
  | _ => false
  end.

(** The methods [SyncGroups] calls. *)
Definition groupCall (c : Call) : bool :=
  match c with
  | GoogleGetGroups _ | GoogleGetGroupMembers _ | FindGroupByDisplayName _
  | CreateGroup _ | IsUserInGroup _ _ | AddUserToGroup _ _
  | RemoveUserFromGroup _ _ => true
  | _ => false
  end.

(** A call about the members of a group concerns a user of the index. *)
Definition indexed (index : gmap string aws.User) (c : Call) : Prop :=
  match c with
  | IsUserInGroup u _ | AddUserToGroup u _ | RemoveUserFromGroup u _ =>
      ∃ k, index !! k = Some u
  | _ => True
  end.

Section Confined.

Context {W : Type} `{!Client W}.

(** Started with the index [index], [m] leaves it as it is and only makes
    calls that satisfy [P]. *)
Definition confined {A} (index : gmap string aws.User) (P : Call → Prop)
    (m : M W A) : Prop :=
  ∀ s, users s = index →
       users (m s).1 = index
       ∧ ∃ t, log (m s).1 = log s ++ t ∧ Forall (λ ev, P ev.1) t.

End Confined.

(** * Properties *)

(** ** Filter policy *)

Lemma listed_elem_of l name : listed l name = true ↔ name ∈ l.
Proof.
  induction l as [|g l IH]; simpl.
  - rewrite elem_of_nil. split; [discriminate | tauto].
  - rewrite elem_of_cons. destruct (decide (g = name)) as [->|Hne].
    + split; auto.
    + rewrite IH. split; [auto | intros [->|?]; [congruence | done]].
Qed.


(** ** The user diff *)

Section UserDiff.

Implicit Types (awsUsers : list aws.User) (googleUsers : list admin.User).

Lemma awsUserMap_snoc awsUsers u :
  awsUserMap (awsUsers ++ [u]) = <[aws.Username u := u]> (awsUserMap awsUsers).
Proof. unfold awsUserMap. by rewrite foldl_app. Qed.

Lemma awsUserMap_None awsUsers k :
  awsUserMap awsUsers !! k = None ↔ k ∉ aws.Username <$> awsUsers.
Proof.
  induction awsUsers as [|u l IH] using rev_ind.
  - unfold awsUserMap; simpl. rewrite lookup_empty, elem_of_nil. tauto.
  - rewrite awsUserMap_snoc, fmap_app, elem_of_app; simpl.
    rewrite list_elem_of_singleton, lookup_insert_None, IH. intuition congruence.
Qed.

Lemma awsUserMap_Some_key awsUsers k a :
  awsUserMap awsUsers !! k = Some a → a ∈ awsUsers ∧ aws.Username a = k.
Proof.
  induction awsUsers as [|u l IH] using rev_ind.
  - unfold awsUserMap; simpl. by rewrite lookup_empty.
  - rewrite awsUserMap_snoc, elem_of_app, list_elem_of_singleton.
    destruct (decide (aws.Username u = k)) as [<-|Hne].
    + rewrite lookup_insert_eq. intros [= ->]. auto.
    + rewrite lookup_insert_ne by done. intros H; apply IH in H. tauto.
Qed.

Lemma awsUserMap_Some awsUsers k a :
  NoDup (aws.Username <$> awsUsers) →
  awsUserMap awsUsers !! k = Some a ↔ a ∈ awsUsers ∧ aws.Username a = k.
Proof.
  intros Hnd. split; [apply awsUserMap_Some_key|].
  intros [Hin <-]. revert Hnd Hin.
  induction awsUsers as [|u l IH] using rev_ind; [by rewrite elem_of_nil|].
  rewrite fmap_app, NoDup_app, awsUserMap_snoc, elem_of_app, list_elem_of_singleton.
  intros (Hl & Hdis & _) [Hin | ->].
  - rewrite lookup_insert_ne; [by apply IH|].
    intros Heq. apply (Hdis (aws.Username a)).
    + by apply list_elem_of_fmap_2.
    + simpl. rewrite Heq. apply list_elem_of_singleton. done.
  - by rewrite lookup_insert_eq.
Qed.

Lemma googleUserSet_elem_of googleUsers k :
  k ∈ googleUserSet googleUsers ↔ k ∈ admin.PrimaryEmail <$> googleUsers.
Proof.
  unfold googleUserSet.
  induction googleUsers as [|u l IH] using rev_ind.
  - simpl. rewrite elem_of_empty, elem_of_nil. tauto.
  - rewrite foldl_app, fmap_app, elem_of_app; simpl.
    rewrite elem_of_union, elem_of_singleton, list_elem_of_singleton, IH. tauto.
Qed.

Lemma omap_head {A B} (f : A → option B) x l :
  omap f (x :: l) = option_list (f x) ++ omap f l.
Proof. simpl. by destruct (f x). Qed.

Lemma userOps_fold awsMap googleUsers add update equals :
  foldl (userOpsStep awsMap) (add, update, equals) googleUsers =
  (add ++ omap (addOf awsMap) googleUsers,
   update ++ omap (updateOf awsMap) googleUsers,
   equals ++ omap (equalOf awsMap) googleUsers).
Proof.
  revert add update equals.
  induction googleUsers as [|g l IH]; intros add update equals.
  - simpl. by rewrite !app_nil_r.
  - cbn [foldl]. rewrite !omap_head.
    unfold userOpsStep, addOf, updateOf, equalOf.
    destruct (awsMap !! admin.PrimaryEmail g) as [a|];
      [destruct (userMismatch a g)|]; rewrite IH; simpl;
      by rewrite <- ?app_assoc.
Qed.

Lemma userDel_fold googleMap awsUsers del :
  foldl (userDelStep googleMap) del awsUsers = del ++ omap (deleteOf googleMap) awsUsers.
Proof.
  revert del. induction awsUsers as [|a l IH]; intros del.
  - simpl. by rewrite app_nil_r.
  - cbn [foldl]. rewrite IH, omap_head.
    unfold userDelStep, deleteOf. destruct (decide _); simpl; by rewrite <- ?app_assoc.
Qed.

Lemma getUserOperations_eq awsUsers googleUsers :
  getUserOperations awsUsers googleUsers =
  mkUserOps (omap (addOf (awsUserMap awsUsers)) googleUsers)
            (omap (deleteOf (googleUserSet googleUsers)) awsUsers)
            (omap (updateOf (awsUserMap awsUsers)) googleUsers)
            (omap (equalOf (awsUserMap awsUsers)) googleUsers).
Proof.
  unfold getUserOperations. rewrite userOps_fold, userDel_fold. done.
Qed.

Lemma userMismatch_true a g :
  userMismatch a g = true ↔
  aws.Active a ≠ negb (admin.Suspended g)
  ∨ aws.GivenName a ≠ admin.GivenName g
  ∨ aws.FamilyName a ≠ admin.FamilyName g.
Proof.
  unfold userMismatch.
  rewrite !orb_true_iff, !negb_true_iff, !bool_decide_eq_false, bool_decide_eq_true.
  destruct (aws.Active a), (admin.Suspended g); simpl; intuition congruence.
Qed.

Lemma userMismatch_false a g :
  userMismatch a g = false ↔
  aws.Active a = negb (admin.Suspended g)
  ∧ aws.GivenName a = admin.GivenName g
  ∧ aws.FamilyName a = admin.FamilyName g.
Proof.
  unfold userMismatch.
  rewrite !orb_false_iff, !negb_false_iff, !bool_decide_eq_true, bool_decide_eq_false.
  destruct (aws.Active a), (admin.Suspended g); simpl; intuition congruence.
Qed.

End UserDiff.

(** ** The group diff *)

Section GroupDiff.

Implicit Types (awsGroups : list aws.Group) (googleGroups : list admin.Group).

Lemma awsGroupMap_snoc awsGroups g :
  awsGroupMap (awsGroups ++ [g]) = <[aws.DisplayName g := g]> (awsGroupMap awsGroups).
Proof. unfold awsGroupMap. by rewrite foldl_app. Qed.

Lemma awsGroupMap_None awsGroups k :
  awsGroupMap awsGroups !! k = None ↔ k ∉ aws.DisplayName <$> awsGroups.
Proof.
  induction awsGroups as [|u l IH] using rev_ind.
  - unfold awsGroupMap; simpl. rewrite lookup_empty, elem_of_nil. tauto.
  - rewrite awsGroupMap_snoc, fmap_app, elem_of_app; simpl.
    rewrite list_elem_of_singleton, lookup_insert_None, IH. intuition congruence.
Qed.

Lemma awsGroupMap_Some_key awsGroups k a :
  awsGroupMap awsGroups !! k = Some a → a ∈ awsGroups ∧ aws.DisplayName a = k.
Proof.
  induction awsGroups as [|u l IH] using rev_ind.
  - unfold awsGroupMap; simpl. by rewrite lookup_empty.
  - rewrite awsGroupMap_snoc, elem_of_app, list_elem_of_singleton.
    destruct (decide (aws.DisplayName u = k)) as [<-|Hne].
    + rewrite lookup_insert_eq. intros [= ->]. auto.
    + rewrite lookup_insert_ne by done. intros H; apply IH in H. tauto.
Qed.

Lemma googleGroupSet_elem_of googleGroups k :
  k ∈ googleGroupSet googleGroups ↔ k ∈ admin.Name <$> googleGroups.
Proof.
  unfold googleGroupSet.
  induction googleGroups as [|u l IH] using rev_ind.
  - simpl. rewrite elem_of_empty, elem_of_nil. tauto.
  - rewrite foldl_app, fmap_app, elem_of_app; simpl.
    rewrite elem_of_union, elem_of_singleton, list_elem_of_singleton, IH. tauto.
Qed.

Lemma groupOps_fold awsMap googleGroups add equals :
  foldl (groupOpsStep awsMap) (add, equals) googleGroups =
  (add ++ omap (addGroupOf awsMap) googleGroups,
   equals ++ omap (equalGroupOf awsMap) googleGroups).
Proof.
  revert add equals.
  induction googleGroups as [|g l IH]; intros add equals.
  - simpl. by rewrite !app_nil_r.
  - cbn [foldl]. rewrite !omap_head.
    unfold groupOpsStep, addGroupOf, equalGroupOf.
    destruct (awsMap !! admin.Name g) as [a|]; rewrite IH; simpl;
      by rewrite <- ?app_assoc.
Qed.

Lemma groupDel_fold googleMap awsGroups del :
  foldl (groupDelStep googleMap) del awsGroups =
  del ++ omap (deleteGroupOf googleMap) awsGroups.
Proof.
  revert del. induction awsGroups as [|a l IH]; intros del.
  - simpl. by rewrite app_nil_r.
  - cbn [foldl]. rewrite IH, omap_head.
    unfold groupDelStep, deleteGroupOf. destruct (decide _); simpl; by rewrite <- ?app_assoc.
Qed.

Lemma getGroupOperations_eq awsGroups googleGroups :
  getGroupOperations awsGroups googleGroups =
  mkGroupOps (omap (addGroupOf (awsGroupMap awsGroups)) googleGroups)
             (omap (deleteGroupOf (googleGroupSet googleGroups)) awsGroups)
             (omap (equalGroupOf (awsGroupMap awsGroups)) googleGroups).
Proof.
  unfold getGroupOperations. rewrite groupOps_fold, groupDel_fold. done.
Qed.

End GroupDiff.

(** ** The membership diff *)

Section MemberDiff.

Lemma sliceAt_insert_eq {V} (m : gmap string (list V)) k l :
  sliceAt (<[k := l]> m) k = l.
Proof. unfold sliceAt. by rewrite lookup_insert_eq. Qed.

Lemma sliceAt_insert_ne {V} (m : gmap string (list V)) k k' l :
  k ≠ k' → sliceAt (<[k := l]> m) k' = sliceAt m k'.
Proof. intros. unfold sliceAt. by rewrite lookup_insert_ne. Qed.

(** The inner loop that fills one member set. *)
Lemma memberSets_inner (mbG : gmap string (gset string)) name (us : list admin.User) s :
  mbG !! name = Some s →
  foldl (λ mbG gUser,
           <[name := {[admin.PrimaryEmail gUser]} ∪ default ∅ (mbG !! name)]> mbG)
        mbG us
  = <[name := list_to_set (admin.PrimaryEmail <$> us) ∪ s]> mbG.
Proof.
  revert mbG s. induction us as [|u us IH]; intros mbG s Hs; simpl.
  - rewrite union_empty_l_L. symmetry. by apply insert_id.
  - erewrite IH by apply lookup_insert_eq.
    rewrite insert_insert_eq, Hs. simpl. f_equal.
    apply set_eq. intros x. rewrite !elem_of_union. tauto.
Qed.

Lemma memberSets_fold (l : list (string * list admin.User))
    (mbG0 : gmap string (gset string)) name :
  NoDup l.*1 →
  foldl memberSetsStep mbG0 l !! name
  = match list_to_map (M := gmap string (list admin.User)) l !! name with
    | Some us => Some (list_to_set (admin.PrimaryEmail <$> us))
    | None => mbG0 !! name
    end.
Proof.
  revert mbG0. induction l as [|[k us] l IH]; intros mbG0 Hnd; simpl.
  - by rewrite lookup_empty.
  - apply NoDup_cons in Hnd as [Hk Hnd].
    rewrite IH by done.
    erewrite memberSets_inner by apply lookup_insert_eq.
    rewrite insert_insert_eq, union_empty_r_L.
    destruct (decide (k = name)) as [->|Hne].
    + rewrite lookup_insert_eq.
      rewrite (not_elem_of_list_to_map_1 l name) by done.
      by rewrite lookup_insert_eq.
    + rewrite !lookup_insert_ne by done. done.
Qed.

Lemma memberSets_lookup (gGroupsUsers : gmap string (list admin.User)) name :
  memberSets gGroupsUsers !! name =
  (λ us, list_to_set (admin.PrimaryEmail <$> us)) <$> gGroupsUsers !! name.
Proof.
  unfold memberSets, rangeMap.
  rewrite memberSets_fold by apply NoDup_fst_map_to_list.
  rewrite list_to_map_to_list, lookup_empty.
  by destruct (gGroupsUsers !! name).
Qed.

Lemma inMemberSets_spec (gGroupsUsers : gmap string (list admin.User)) name user :
  inMemberSets (memberSets gGroupsUsers) name user = true ↔
  user ∈ admin.PrimaryEmail <$> sliceAt gGroupsUsers name.
Proof.
  unfold inMemberSets, sliceAt. rewrite memberSets_lookup.
  destruct (gGroupsUsers !! name) as [us|]; simpl.
  - by rewrite bool_decide_eq_true, elem_of_list_to_set.
  - rewrite elem_of_nil. split; [discriminate | tauto].
Qed.

(** The inner loop over the AWS members of one group only touches the
    entries of that group. *)
Lemma groupUsers_inner mbG name (us : list aws.User) del eq :
  let r := foldl (groupUsersStep mbG name) (del, eq) us in
  (∀ k, sliceAt r.1 k =
        if decide (k = name)
        then sliceAt del k ++
             filter (λ u, inMemberSets mbG name (aws.Username u) = false) us
        else sliceAt del k)
  ∧ (∀ k, sliceAt r.2 k =
          if decide (k = name)
          then sliceAt eq k ++
               filter (λ u, inMemberSets mbG name (aws.Username u) = true) us
          else sliceAt eq k).
Proof.
  revert del eq. induction us as [|u us IH]; intros del eq; simpl.
  - split; intros k; case_decide; by rewrite ?app_nil_r.
  - destruct (inMemberSets mbG name (aws.Username u)) eqn:Hin;
      (match goal with
       | |- context [foldl _ (?d, ?e) us] => destruct (IH d e) as [IHd IHe]
       end; split; intros k;
       [rewrite IHd | rewrite IHe]; clear IHd IHe;
       rewrite !filter_cons, ?Hin; repeat case_decide; subst; try done;
       rewrite ?sliceAt_insert_eq, ?sliceAt_insert_ne by done;
       rewrite <- ?app_assoc; done).
Qed.

Lemma groupUsers_fold mbG (l : list (string * list aws.User)) del eq :
  NoDup l.*1 →
  let r := foldl (groupUsersGroup mbG) (del, eq) l in
  (∀ k, sliceAt r.1 k =
        sliceAt del k ++
        filter (λ u, inMemberSets mbG k (aws.Username u) = false)
               (sliceAt (list_to_map l) k))
  ∧ (∀ k, sliceAt r.2 k =
          sliceAt eq k ++
          filter (λ u, inMemberSets mbG k (aws.Username u) = true)
                 (sliceAt (list_to_map l) k)).
Proof.
  revert del eq. induction l as [|[name us] l IH]; intros del eq Hnd; simpl.
  - split; intros k; unfold sliceAt at 3; rewrite lookup_empty; simpl;
      by rewrite app_nil_r.
  - apply NoDup_cons in Hnd as [Hk Hnd].
    pose proof (groupUsers_inner mbG name us del eq) as [Hd He].
    destruct (foldl (groupUsersStep mbG name) (del, eq) us) as [del' eq'].
    simpl in Hd, He.
    destruct (IH del' eq' Hnd) as [IHd IHe].
    split; intros k; [rewrite IHd, Hd | rewrite IHe, He]; clear IHd IHe Hd He;
      (destruct (decide (k = name)) as [->|Hne];
       [ rewrite sliceAt_insert_eq;
         unfold sliceAt at 2; rewrite (not_elem_of_list_to_map_1 l name) by done;
         simpl; by rewrite app_nil_r
       | by rewrite sliceAt_insert_ne by done ]).
Qed.

Lemma getGroupUsersOperations_spec gGroupsUsers awsGroupsUsers k :
  let r := getGroupUsersOperations gGroupsUsers awsGroupsUsers in
  sliceAt r.1 k =
    filter (λ u, aws.Username u ∉ admin.PrimaryEmail <$> sliceAt gGroupsUsers k)
           (sliceAt awsGroupsUsers k)
  ∧ sliceAt r.2 k =
    filter (λ u, aws.Username u ∈ admin.PrimaryEmail <$> sliceAt gGroupsUsers k)
           (sliceAt awsGroupsUsers k).
Proof.
  unfold getGroupUsersOperations, rangeMap.
  pose proof (groupUsers_fold (memberSets gGroupsUsers) (map_to_list awsGroupsUsers)
                ∅ ∅ (NoDup_fst_map_to_list _)) as [Hd He].
  simpl in *. rewrite Hd, He, list_to_map_to_list.
  unfold sliceAt at 1 4. rewrite lookup_empty. simpl.
  split; apply list_filter_iff; intros u.
  - rewrite <- inMemberSets_spec. by destruct (inMemberSets _ _ _).
  - by rewrite <- inMemberSets_spec.
Qed.

End MemberDiff.

(** ** Keys of the operation sets *)

Section Keys.

Lemma NoDup_omap_keys {A B K} (key : A → K) (key' : B → K) (f : A → option B) (l : list A) :
  (∀ x y, f x = Some y → key' y = key x) →
  NoDup (key <$> l) → NoDup (key' <$> omap f l).
Proof.
  intros Hkey. induction l as [|x l IH]; simpl; [constructor|].
  rewrite NoDup_cons. intros [Hx Hl].
  destruct (f x) as [y|] eqn:Hfx; simpl; [|by apply IH].
  apply NoDup_cons. split; [|by apply IH].
  intros Hin. apply Hx.
  apply list_elem_of_fmap in Hin as (y' & Hy' & Hin).
  apply list_elem_of_omap in Hin as (x' & Hx' & Hfx').
  apply list_elem_of_fmap. exists x'. split; [|done].
  apply Hkey in Hfx, Hfx'. congruence.
Qed.

Lemma elem_of_omap_keys {A B K} (key' : B → K) (f : A → option B) (l : list A) k :
  k ∈ key' <$> omap f l ↔ ∃ x y, x ∈ l ∧ f x = Some y ∧ key' y = k.
Proof.
  rewrite list_elem_of_fmap. setoid_rewrite list_elem_of_omap.
  split.
  - intros (y & -> & x & ? & ?). eauto.
  - intros (x & y & ? & ? & <-). eauto.
Qed.

Context (awsUsers : list aws.User) (googleUsers : list admin.User).
Let awsMap := awsUserMap awsUsers.
Let googleMap := googleUserSet googleUsers.

Lemma addOf_key g y : addOf awsMap g = Some y → aws.Username y = admin.PrimaryEmail g.
Proof. unfold addOf. destruct (awsMap !! _); [done|]. by intros [= <-]. Qed.

Lemma updateOf_key g y : updateOf awsMap g = Some y → aws.Username y = admin.PrimaryEmail g.
Proof.
  unfold updateOf. destruct (awsMap !! _) as [a|]; [|done].
  destruct (userMismatch a g); [|done]. by intros [= <-].
Qed.

Lemma equalOf_key g y : equalOf awsMap g = Some y → aws.Username y = admin.PrimaryEmail g.
Proof.
  unfold equalOf. destruct (awsMap !! _) as [a|] eqn:Ha; [|done].
  destruct (userMismatch a g); [done|]. intros [= <-].
  by apply awsUserMap_Some_key in Ha as [_ ?].
Qed.

Lemma deleteOf_key a y : deleteOf googleMap a = Some y → aws.Username y = aws.Username a.
Proof. unfold deleteOf. destruct (decide _); [done|]. by intros [= <-]. Qed.

Lemma key_add k :
  k ∈ aws.Username <$> omap (addOf awsMap) googleUsers ↔
  k ∈ admin.PrimaryEmail <$> googleUsers ∧ k ∉ aws.Username <$> awsUsers.
Proof.
  rewrite elem_of_omap_keys, list_elem_of_fmap, <- awsUserMap_None. fold awsMap.
  split.
  - intros (g & y & Hg & Hy & <-). pose proof (addOf_key _ _ Hy) as ->.
    split; [eauto|]. unfold addOf in Hy. by destruct (awsMap !! _).
  - intros [(g & -> & Hg) Hk]. exists g, (fromGoogle g).
    unfold addOf. rewrite Hk. done.
Qed.

Lemma key_delete k :
  k ∈ aws.Username <$> omap (deleteOf googleMap) awsUsers ↔
  k ∈ aws.Username <$> awsUsers ∧ k ∉ admin.PrimaryEmail <$> googleUsers.
Proof.
  rewrite elem_of_omap_keys, list_elem_of_fmap, <- googleUserSet_elem_of. fold googleMap.
  split.
  - intros (a & y & Ha & Hy & <-). pose proof (deleteOf_key _ _ Hy) as ->.
    split; [eauto|]. unfold deleteOf in Hy. by destruct (decide _).
  - intros [(a & -> & Ha) Hk]. exists a. eexists. split; [done|].
    unfold deleteOf. rewrite decide_False by done. done.
Qed.

Lemma key_update k :
  k ∈ aws.Username <$> omap (updateOf awsMap) googleUsers ↔
  ∃ g a, g ∈ googleUsers ∧ admin.PrimaryEmail g = k
         ∧ awsMap !! k = Some a ∧ userMismatch a g = true.
Proof.
  rewrite elem_of_omap_keys. split.
  - intros (g & y & Hg & Hy & <-). pose proof (updateOf_key _ _ Hy) as ->.
    unfold updateOf in Hy. destruct (awsMap !! _) as [a|] eqn:Ha; [|done].
    destruct (userMismatch a g) eqn:Hm; [|done]. eauto 10.
  - intros (g & a & Hg & <- & Ha & Hm). exists g, (fromGoogle g).
    unfold updateOf. rewrite Ha, Hm. done.
Qed.

Lemma key_equals k :
  k ∈ aws.Username <$> omap (equalOf awsMap) googleUsers ↔
  ∃ g a, g ∈ googleUsers ∧ admin.PrimaryEmail g = k
         ∧ awsMap !! k = Some a ∧ userMismatch a g = false.
Proof.
  rewrite elem_of_omap_keys. split.
  - intros (g & y & Hg & Hy & <-). pose proof (equalOf_key _ _ Hy) as ->.
    unfold equalOf in Hy. destruct (awsMap !! _) as [a|] eqn:Ha; [|done].
    destruct (userMismatch a g) eqn:Hm; [done|]. eauto 10.
  - intros (g & a & Hg & <- & Ha & Hm). exists g, a.
    unfold equalOf. rewrite Ha, Hm. split; [done|]. split; [done|].
    by apply awsUserMap_Some_key in Ha as [_ ?].
Qed.

Lemma unique_by_email g g' :
  NoDup (admin.PrimaryEmail <$> googleUsers) →
  g ∈ googleUsers → g' ∈ googleUsers →
  admin.PrimaryEmail g = admin.PrimaryEmail g' → g = g'.
Proof.
  intros Hnd. induction googleUsers as [|x l IH]; [by rewrite elem_of_nil|].
  rewrite fmap_cons, NoDup_cons in Hnd. destruct Hnd as [Hx Hnd].
  rewrite !elem_of_cons. intros [->|Hg] [->|Hg'] Heq; [done| | |by apply IH].
  - exfalso. apply Hx. rewrite Heq. by apply list_elem_of_fmap_2.
  - exfalso. apply Hx. rewrite <- Heq. by apply list_elem_of_fmap_2.
Qed.

Lemma user_keys_exactlyOne k :
  NoDup (admin.PrimaryEmail <$> googleUsers) →
  k ∈ admin.PrimaryEmail <$> googleUsers ∨ k ∈ aws.Username <$> awsUsers →
  exactlyOne
    [ k ∈ aws.Username <$> omap (addOf awsMap) googleUsers;
      k ∈ aws.Username <$> omap (deleteOf googleMap) awsUsers;
      k ∈ aws.Username <$> omap (updateOf awsMap) googleUsers;
      k ∈ aws.Username <$> omap (equalOf awsMap) googleUsers ].
Proof.
  intros Hnd Hk. simpl. rewrite !Forall_cons, Forall_nil.
  rewrite key_add, key_delete, key_update, key_equals.
  destruct (decide (k ∈ admin.PrimaryEmail <$> googleUsers)) as [HG|HG];
    destruct (awsMap !! k) as [a|] eqn:HA.
  - (* on both sides *)
    apply list_elem_of_fmap in HG as (g & -> & Hg).
    assert (admin.PrimaryEmail g ∈ aws.Username <$> awsUsers) as HinA.
    { destruct (decide (admin.PrimaryEmail g ∈ aws.Username <$> awsUsers)); [done|].
      apply awsUserMap_None in n. fold awsMap in n. congruence. }
    assert (admin.PrimaryEmail g ∈ admin.PrimaryEmail <$> googleUsers) as HinG
      by by apply list_elem_of_fmap_2.
    right. split; [tauto|]. right. split; [tauto|].
    destruct (userMismatch a g) eqn:Hm.
    + left. split; [eauto 10|]. split; [|done].
      intros (g' & a' & Hg' & Heq & Ha' & Hm').
      assert (g' = g) as -> by (by apply unique_by_email). congruence.
    + right. split; [|left; split; [eauto 10 | done]].
      intros (g' & a' & Hg' & Heq & Ha' & Hm').
      assert (g' = g) as -> by (by apply unique_by_email). congruence.
  - (* source only *)
    apply awsUserMap_None in HA.
    left. split; [done|]. repeat split.
    + tauto.
    + intros (? & ? & ? & ? & ? & ?). apply awsUserMap_None in HA. fold awsMap in HA. congruence.
    + intros (? & ? & ? & ? & ? & ?). apply awsUserMap_None in HA. fold awsMap in HA. congruence.
  - (* target only *)
    destruct Hk as [?|HinA]; [done|].
    right. split; [tauto|]. left. split; [done|]. repeat split.
    + intros (g & ? & Hg & <- & _). apply HG. by apply list_elem_of_fmap_2.
    + intros (g & ? & Hg & <- & _). apply HG. by apply list_elem_of_fmap_2.
  - apply awsUserMap_None in HA. tauto.
Qed.

End Keys.

Section GroupKeys.

Context (awsGroups : list aws.Group) (googleGroups : list admin.Group).
Let awsMap := awsGroupMap awsGroups.
Let googleMap := googleGroupSet googleGroups.

Lemma addGroupOf_key g y :
  addGroupOf awsMap g = Some y → aws.DisplayName y = admin.Name g.
Proof. unfold addGroupOf. destruct (awsMap !! _); [done|]. by intros [= <-]. Qed.

Lemma equalGroupOf_key g y :
  equalGroupOf awsMap g = Some y → aws.DisplayName y = admin.Name g.
Proof. unfold equalGroupOf. intros Ha. by apply awsGroupMap_Some_key in Ha as [_ ?]. Qed.

Lemma deleteGroupOf_key a y :
  deleteGroupOf googleMap a = Some y → aws.DisplayName y = aws.DisplayName a.
Proof. unfold deleteGroupOf. destruct (decide _); [done|]. by intros [= <-]. Qed.

Lemma key_group_add k :
  k ∈ aws.DisplayName <$> omap (addGroupOf awsMap) googleGroups ↔
  k ∈ admin.Name <$> googleGroups ∧ k ∉ aws.DisplayName <$> awsGroups.
Proof.
  rewrite elem_of_omap_keys, list_elem_of_fmap, <- awsGroupMap_None. fold awsMap.
  split.
  - intros (g & y & Hg & Hy & <-). pose proof (addGroupOf_key _ _ Hy) as ->.
    split; [eauto|]. unfold addGroupOf in Hy. by destruct (awsMap !! _).
  - intros [(g & -> & Hg) Hk]. exists g, (aws.NewGroup (admin.Name g)).
    unfold addGroupOf. rewrite Hk. done.
Qed.

Lemma key_group_delete k :
  k ∈ aws.DisplayName <$> omap (deleteGroupOf googleMap) awsGroups ↔
  k ∈ aws.DisplayName <$> awsGroups ∧ k ∉ admin.Name <$> googleGroups.
Proof.
  rewrite elem_of_omap_keys, list_elem_of_fmap, <- googleGroupSet_elem_of. fold googleMap.
  split.
  - intros (a & y & Ha & Hy & <-). pose proof (deleteGroupOf_key _ _ Hy) as ->.
    split; [eauto|]. unfold deleteGroupOf in Hy. by destruct (decide _).
  - intros [(a & -> & Ha) Hk]. exists a. eexists. split; [done|].
    unfold deleteGroupOf. rewrite decide_False by done. done.
Qed.

Lemma key_group_equals k :
  k ∈ aws.DisplayName <$> omap (equalGroupOf awsMap) googleGroups ↔
  k ∈ admin.Name <$> googleGroups ∧ k ∈ aws.DisplayName <$> awsGroups.
Proof.
  rewrite elem_of_omap_keys, list_elem_of_fmap. split.
  - intros (g & y & Hg & Hy & <-). pose proof (equalGroupOf_key _ _ Hy) as ->.
    split; [eauto|].
    destruct (decide (admin.Name g ∈ aws.DisplayName <$> awsGroups)) as [|Hn]; [done|].
    apply awsGroupMap_None in Hn. unfold equalGroupOf in Hy. fold awsMap in Hn. congruence.
  - intros [(g & -> & Hg) Hk].
    destruct (awsMap !! admin.Name g) as [a|] eqn:Ha.
    + exists g, a. split; [done|]. split; [done|].
      by apply awsGroupMap_Some_key in Ha as [_ ?].
    + apply awsGroupMap_None in Ha. done.
Qed.

Lemma group_keys_exactlyOne k :
  k ∈ admin.Name <$> googleGroups ∨ k ∈ aws.DisplayName <$> awsGroups →
  exactlyOne
    [ k ∈ aws.DisplayName <$> omap (addGroupOf awsMap) googleGroups;
      k ∈ aws.DisplayName <$> omap (deleteGroupOf googleMap) awsGroups;
      k ∈ aws.DisplayName <$> omap (equalGroupOf awsMap) googleGroups ].
Proof.
  intros Hk. simpl. rewrite !Forall_cons, Forall_nil.
  rewrite key_group_add, key_group_delete, key_group_equals.
  destruct (decide (k ∈ admin.Name <$> googleGroups));
    destruct (decide (k ∈ aws.DisplayName <$> awsGroups)); tauto.
Qed.

End GroupKeys.

(** ** The claims about the filter policy and the diff engine *)



(** C4: [getUserOperations] puts a source-only key into [add] with the
    record built from the source attributes and active = !suspended; a key
    on both sides into [update], with that same whole record, exactly when
    the active flag differs from the negated suspended flag or a name
    differs, and into [equals] otherwise; a target-only key into
    [delete]. *)
Theorem C4_user_classification (awsUsers : list aws.User) (googleUsers : list admin.User) :
  NoDup (aws.Username <$> awsUsers) →
  let ops := getUserOperations awsUsers googleUsers in
  (∀ x, x ∈ uo_add ops ↔
        ∃ g, g ∈ googleUsers
             ∧ (admin.PrimaryEmail g ∉ aws.Username <$> awsUsers)
             ∧ x = aws.NewUser (admin.GivenName g) (admin.FamilyName g)
                               (admin.PrimaryEmail g) (negb (admin.Suspended g)))
  ∧ (∀ x, x ∈ uo_update ops ↔
          ∃ g a, g ∈ googleUsers ∧ a ∈ awsUsers
                 ∧ aws.Username a = admin.PrimaryEmail g
                 ∧ (aws.Active a ≠ negb (admin.Suspended g)
                    ∨ aws.GivenName a ≠ admin.GivenName g
                    ∨ aws.FamilyName a ≠ admin.FamilyName g)
                 ∧ x = aws.NewUser (admin.GivenName g) (admin.FamilyName g)
                                   (admin.PrimaryEmail g) (negb (admin.Suspended g)))
  ∧ (∀ x, x ∈ uo_equals ops ↔
          ∃ g, g ∈ googleUsers ∧ x ∈ awsUsers
               ∧ aws.Username x = admin.PrimaryEmail g
               ∧ aws.Active x = negb (admin.Suspended g)
               ∧ aws.GivenName x = admin.GivenName g
               ∧ aws.FamilyName x = admin.FamilyName g)
  ∧ (∀ x, x ∈ uo_delete ops ↔
          ∃ a, a ∈ awsUsers
               ∧ (aws.Username a ∉ admin.PrimaryEmail <$> googleUsers)
               ∧ x = aws.NewUser (aws.GivenName a) (aws.FamilyName a)
                                 (aws.Username a) (aws.Active a)).
Proof.
  intros Hnd ops. subst ops. rewrite getUserOperations_eq. simpl.
  repeat split.
  - rewrite list_elem_of_omap. intros (g & Hg & Hx). exists g.
    unfold addOf in Hx. destruct (awsUserMap awsUsers !! _) eqn:Ha; [done|].
    apply awsUserMap_None in Ha. by injection Hx as <-.
  - intros (g & Hg & Hk & ->). apply list_elem_of_omap. exists g. split; [done|].
    apply awsUserMap_None in Hk. unfold addOf. by rewrite Hk.
  - rewrite list_elem_of_omap. intros (g & Hg & Hx).
    unfold updateOf in Hx. destruct (awsUserMap awsUsers !! _) as [a|] eqn:Ha; [|done].
    destruct (userMismatch a g) eqn:Hm; [|done]. injection Hx as <-.
    apply awsUserMap_Some_key in Ha as [Ha Hk]. apply userMismatch_true in Hm.
    exists g, a. done.
  - intros (g & a & Hg & Ha & Hk & Hm & ->). apply list_elem_of_omap.
    exists g. split; [done|]. unfold updateOf.
    rewrite (proj2 (awsUserMap_Some awsUsers _ a Hnd)) by done.
    apply userMismatch_true in Hm. by rewrite Hm.
  - rewrite list_elem_of_omap. intros (g & Hg & Hx).
    unfold equalOf in Hx. destruct (awsUserMap awsUsers !! _) as [a|] eqn:Ha; [|done].
    destruct (userMismatch a g) eqn:Hm; [done|]. injection Hx as <-.
    apply awsUserMap_Some_key in Ha as [Ha Hk]. apply userMismatch_false in Hm.
    exists g. tauto.
  - intros (g & Hx & Ha & Hk & Hm). apply list_elem_of_omap.
    exists g. split; [tauto|]. unfold equalOf.
    rewrite (proj2 (awsUserMap_Some awsUsers _ x Hnd)) by done.
    by rewrite (proj2 (userMismatch_false x g)).
  - rewrite list_elem_of_omap. intros (a & Ha & Hx). exists a.
    unfold deleteOf in Hx. destruct (decide _) as [|Hk]; [done|].
    rewrite googleUserSet_elem_of in Hk. by injection Hx as <-.
  - intros (a & Ha & Hk & ->). apply list_elem_of_omap. exists a. split; [done|].
    unfold deleteOf. rewrite decide_False; [done|]. by rewrite googleUserSet_elem_of.
Qed.

(** The scenario snapshots satisfy the assumption of C4; Cy ends up in
    [update] with the whole record of the source. *)
Lemma C4_witness :
  aws.NewUser "Cy" "Dee" "c@x.com" false
    ∈ uo_update (getUserOperations targetUsers sourceUsers).
Proof.
  assert (NoDup (aws.Username <$> targetUsers)) as Hnd by compute_done.
  destruct (C4_user_classification targetUsers sourceUsers Hnd) as (_ & Hupd & _).
  apply Hupd.
  exists (admin.mkUser "c@x.com" "Cy" "Dee" true), (aws.mkUser "u-3" "c@x.com" "Cy" "Dee" true).
  repeat split; [compute_done | compute_done | left; discriminate].
Defined.

(** C5: when no two users of a snapshot share a primary e-mail and no two
    groups share a display name, every user key of either snapshot is the
    key of a record in exactly one of [add], [delete], [update], [equals],
    every group key in exactly one of [add], [delete], [equals]; and no key
    occurs twice in the sets taken together. *)
Theorem C5_keys_partitioned (awsUsers : list aws.User) (googleUsers : list admin.User)
    (awsGroups : list aws.Group) (googleGroups : list admin.Group) :
  NoDup (aws.Username <$> awsUsers) →
  NoDup (admin.PrimaryEmail <$> googleUsers) →
  NoDup (aws.DisplayName <$> awsGroups) →
  NoDup (admin.Name <$> googleGroups) →
  let uo := getUserOperations awsUsers googleUsers in
  let go := getGroupOperations awsGroups googleGroups in
  (∀ k, k ∈ (admin.PrimaryEmail <$> googleUsers) ∨ k ∈ (aws.Username <$> awsUsers) →
        exactlyOne [ k ∈ (aws.Username <$> uo_add uo);
                     k ∈ (aws.Username <$> uo_delete uo);
                     k ∈ (aws.Username <$> uo_update uo);
                     k ∈ (aws.Username <$> uo_equals uo) ])
  ∧ (∀ k, k ∈ (admin.Name <$> googleGroups) ∨ k ∈ (aws.DisplayName <$> awsGroups) →
          exactlyOne [ k ∈ (aws.DisplayName <$> go_add go);
                       k ∈ (aws.DisplayName <$> go_delete go);
                       k ∈ (aws.DisplayName <$> go_equals go) ])
  ∧ NoDup (aws.Username <$>
             uo_add uo ++ uo_delete uo ++ uo_update uo ++ uo_equals uo)
  ∧ NoDup (aws.DisplayName <$> go_add go ++ go_delete go ++ go_equals go).
Proof.
  intros HA HG HAg HGg uo go. subst uo go.
  rewrite getUserOperations_eq, getGroupOperations_eq. simpl.
  split; [intros; by apply user_keys_exactlyOne|].
  split; [intros; by apply group_keys_exactlyOne|].
  split.
  - rewrite !fmap_app, !NoDup_app.
    pose proof (NoDup_omap_keys _ aws.Username _ googleUsers
                  (addOf_key awsUsers) HG) as Hadd.
    pose proof (NoDup_omap_keys _ aws.Username _ awsUsers
                  (deleteOf_key googleUsers) HA) as Hdel.
    pose proof (NoDup_omap_keys _ aws.Username _ googleUsers
                  (updateOf_key awsUsers) HG) as Hupd.
    pose proof (NoDup_omap_keys _ aws.Username _ googleUsers
                  (equalOf_key awsUsers) HG) as Heq.
    repeat split; try done.
    + intros k Hk. pose proof Hk as Hk'. apply key_add in Hk' as [Hin _].
      pose proof (user_keys_exactlyOne awsUsers googleUsers k HG (or_introl Hin)) as H1.
      simpl in H1. rewrite !Forall_cons in H1. rewrite !elem_of_app. tauto.
    + intros k Hk. pose proof Hk as Hk'. apply key_delete in Hk' as [Hin _].
      pose proof (user_keys_exactlyOne awsUsers googleUsers k HG (or_intror Hin)) as H1.
      simpl in H1. rewrite !Forall_cons in H1. rewrite !elem_of_app. tauto.
    + intros k Hk. pose proof Hk as Hk'.
      apply key_update in Hk' as (g & a & Hg & <- & _).
      pose proof (user_keys_exactlyOne awsUsers googleUsers _ HG
                    (or_introl (list_elem_of_fmap_2 admin.PrimaryEmail _ _ Hg))) as H1.
      simpl in H1. rewrite !Forall_cons in H1. tauto.
  - rewrite !fmap_app, !NoDup_app.
    pose proof (NoDup_omap_keys _ aws.DisplayName _ googleGroups
                  (addGroupOf_key awsGroups) HGg) as Hadd.
    pose proof (NoDup_omap_keys _ aws.DisplayName _ awsGroups
                  (deleteGroupOf_key googleGroups) HAg) as Hdel.
    pose proof (NoDup_omap_keys _ aws.DisplayName _ googleGroups
                  (equalGroupOf_key awsGroups) HGg) as Heq.
    repeat split; try done.
    + intros k Hk. rewrite elem_of_app, key_group_delete, key_group_equals.
      apply key_group_add in Hk. tauto.
    + intros k Hk. rewrite key_group_equals. apply key_group_delete in Hk. tauto.
Qed.

(** The scenario snapshots satisfy the assumptions of C5. *)
Lemma C5_witness :
  exactlyOne
    [ "c@x.com" ∈ (aws.Username <$> uo_add (getUserOperations targetUsers sourceUsers));
      "c@x.com" ∈ (aws.Username <$> uo_delete (getUserOperations targetUsers sourceUsers));
      "c@x.com" ∈ (aws.Username <$> uo_update (getUserOperations targetUsers sourceUsers));
      "c@x.com" ∈ (aws.Username <$> uo_equals (getUserOperations targetUsers sourceUsers)) ]
  ∧ exactlyOne
      [ "old" ∈ (aws.DisplayName <$> go_add (getGroupOperations targetGroups sourceGroups));
        "old" ∈ (aws.DisplayName <$> go_delete (getGroupOperations targetGroups sourceGroups));
        "old" ∈ (aws.DisplayName <$> go_equals (getGroupOperations targetGroups sourceGroups)) ].
Proof.
  assert (NoDup (aws.Username <$> targetUsers)) as H1 by compute_done.
  assert (NoDup (admin.PrimaryEmail <$> sourceUsers)) as H2 by compute_done.
  assert (NoDup (aws.DisplayName <$> targetGroups)) as H3 by compute_done.
  assert (NoDup (admin.Name <$> sourceGroups)) as H4 by compute_done.
  destruct (C5_keys_partitioned targetUsers sourceUsers targetGroups sourceGroups
              H1 H2 H3 H4) as (Hu & Hg & _).
  split; [apply Hu | apply Hg]; right; compute_done.
Defined.

(** C7: for every group, a member of the target-side member list is put
    under [delete] exactly when its username is not the primary e-mail of a
    member of the source group, and under [equals] exactly when it is;
    nothing else is put under either. *)
Theorem C7_membership_diff (gGroupsUsers : gmap string (list admin.User))
    (awsGroupsUsers : gmap string (list aws.User)) (group : string) (u : aws.User) :
  let '(delete, equals) := getGroupUsersOperations gGroupsUsers awsGroupsUsers in
  (u ∈ sliceAt delete group ↔
     u ∈ sliceAt awsGroupsUsers group
     ∧ aws.Username u ∉ (admin.PrimaryEmail <$> sliceAt gGroupsUsers group))
  ∧ (u ∈ sliceAt equals group ↔
       u ∈ sliceAt awsGroupsUsers group
       ∧ aws.Username u ∈ (admin.PrimaryEmail <$> sliceAt gGroupsUsers group)).
Proof.
  pose proof (getGroupUsersOperations_spec gGroupsUsers awsGroupsUsers group) as H.
  destruct (getGroupUsersOperations gGroupsUsers awsGroupsUsers) as [delete equals].
  simpl in H. destruct H as [-> ->].
  rewrite !list_elem_of_filter. tauto.
Qed.

(** The diff of the scenario snapshots. *)
Example scenario_user_operations :
  getUserOperations targetUsers sourceUsers
  = mkUserOps [aws.NewUser "Ann" "Lee" "a@x.com" true]
              [aws.NewUser "Bob" "Ray" "b@x.com" true]
              [aws.NewUser "Cy" "Dee" "c@x.com" false]
              [aws.mkUser "u-4" "d@x.com" "Di" "Fox" true].
Proof. by vm_compute. Qed.

Example scenario_group_operations :
  getGroupOperations targetGroups sourceGroups
  = mkGroupOps [aws.NewGroup "eng"] [aws.NewGroup "old"] [aws.mkGroup "g-1" "ops"].
Proof. by vm_compute. Qed.

(** Group G with source members a, b and target members b, c: c is to be
    removed, b is equal. *)
Example scenario_membership :
  let '(delete, equals) :=
    getGroupUsersOperations
      {["G" := [admin.mkUser "a@x.com" "Ann" "Lee" false;
                admin.mkUser "b@x.com" "Bob" "Ray" false]]}
      {["G" := [aws.mkUser "u-2" "b@x.com" "Bob" "Ray" true;
                aws.mkUser "u-3" "c@x.com" "Cy" "Dee" true]]} in
  sliceAt delete "G" = [aws.mkUser "u-3" "c@x.com" "Cy" "Dee" true]
  ∧ sliceAt equals "G" = [aws.mkUser "u-2" "b@x.com" "Bob" "Ray" true].
Proof. by vm_compute. Qed.

(** ** Runs: logs, order and errors *)

Section TraceLemmas.

Context {W : Type} `{!Client W}.
Local Abbreviation M := (M W).

Lemma replay_app (w : W) t1 t2 : replay w (t1 ++ t2) = replay (replay w t1) t2.
Proof. unfold replay. by rewrite foldl_app. Qed.

Lemma bind_run {A B} (m : M A) (f : A → M B) s :
  (m ≫= f) s = match m s with
                | (s', inl e) => (s', inl e)
                | (s', inr a) => f a s'
                end.
Proof. reflexivity. Qed.

Lemma call_run c (s : State W) :
  call c s = (mkState (handle c (world s)).1
                      (log s ++ [(c, errOf (handle c (world s)).2)])
                      (users s),
              inr (handle c (world s)).2).
Proof. unfold call. by destruct (handle c (world s)). Qed.

Lemma try_run c (s : State W) :
  try c s = (mkState (handle c (world s)).1
                     (log s ++ [(c, errOf (handle c (world s)).2)])
                     (users s),
             (handle c (world s)).2).
Proof.
  unfold try. rewrite bind_run, call_run.
  by destruct ((handle c (world s)).2).
Qed.

(** *** Stopping at the first error *)

Lemma tracks_ret {A} (a : A) : tracks (mret a : M A).
Proof.
  intros s. exists []. simpl. rewrite app_nil_r. repeat split. constructor.
Qed.

Lemma tracks_bind {A B} (m : M A) (f : A → M B) :
  tracks m → (∀ a, tracks (f a)) → tracks (m ≫= f).
Proof.
  intros Hm Hf s. rewrite bind_run.
  destruct (Hm s) as (t1 & Hlog1 & Hw1 & Hff1).
  destruct (m s) as [s1 [e|a]]; simpl in *.
  - exists t1. done.
  - destruct (Hf a s1) as (t2 & Hlog2 & Hw2 & Hff2).
    exists (t1 ++ t2). rewrite Hlog2, Hlog1, Hw2, Hw1, replay_app, app_assoc.
    repeat split.
    destruct ((f a s1).2) as [e|b]; simpl in *.
    + destruct Hff2 as (t0 & c & -> & Ht0 & Hsw).
      exists (t1 ++ t0), c. rewrite app_assoc. repeat split; [|done].
      by apply Forall_app.
    + by apply Forall_app.
Qed.

Lemma swallowed_other c e :
  (∀ u, c ≠ CreateUser u) → swallowed (c, e) = false.
Proof. intros Hc. destruct c; try done. by destruct (Hc u). Qed.

Lemma tracks_try c : (∀ u, c ≠ CreateUser u) → tracks (try c).
Proof.
  intros Hc s. rewrite try_run. simpl. eexists. repeat split.
  destruct ((handle c (world s)).2) as [e|a] eqn:Hr; simpl.
  - exists [], c. split; [done|]. split; [constructor|].
    exact (swallowed_other c (Some e) Hc).
  - constructor; [by left | constructor].
Qed.

Lemma tracks_addUser u : tracks (addUser u).
Proof.
  intros s. unfold addUser. rewrite bind_run, call_run.
  exists [(CreateUser u, errOf (handle (CreateUser u) (world s)).2)].
  destruct ((handle (CreateUser u) (world s)).2) as [e|a] eqn:Hr; simpl.
  - destruct (isConflict e) eqn:He; simpl; (split; [done|]); (split; [done|]).
    + constructor; [|constructor]. right. by destruct e.
    + exists [], (CreateUser u). split; [done|]. split; [constructor|].
      by destruct e.
  - split; [done|]. split; [done|]. constructor; [by left | constructor].
Qed.

Lemma tracks_foldM {A B} (body : B → A → M B) l b :
  (∀ b x, tracks (body b x)) → tracks (foldM body l b).
Proof.
  intros Hbody. revert b. induction l as [|x l IH]; intros b; simpl.
  - apply tracks_ret.
  - apply tracks_bind; [apply Hbody | apply IH].
Qed.

Lemma tracks_forEach {A} (l : list A) (body : A → M unit) :
  (∀ x, tracks (body x)) → tracks (forEach l body).
Proof. intros. by apply tracks_foldM. Qed.

(** Decompose a computation along its binds, loops and branches. *)
Ltac step_tracks :=
  first
    [ apply tracks_ret
    | apply tracks_addUser
    | match goal with
      | |- tracks (try ?c) => apply (tracks_try c); done
      end
    | apply tracks_forEach; intros
    | apply tracks_foldM; intros
    | apply tracks_bind; [|intros]
    | match goal with
      | |- tracks (match ?x with _ => _ end) => destruct x
      | |- tracks (if ?b then _ else _) => destruct b
      end ].

Ltac solve_tracks := repeat step_tracks.

Context (cfg : Config).

Lemma tracks_collect query : tracks (collect cfg query).
Proof.
  unfold collect, getGoogleGroupsAndUsers, getAWSGroupsAndUsers,
    collectGroup, collectMember, probeMember.
  solve_tracks.
Qed.

Lemma tracks_applyChanges sn : tracks (applyChanges (W:=W) sn).
Proof.
  unfold applyChanges, deleteUsers, updateUsers, addUsers, addGroups,
    equalGroups, deleteGroups.
  solve_tracks.
Qed.

Lemma tracks_SyncGroupsUsers query : tracks (SyncGroupsUsers cfg query).
Proof.
  apply tracks_bind; [apply tracks_collect | apply tracks_applyChanges].
Qed.

(** *** Which calls a step makes *)

Lemma emits_ret {A} P (a : A) : emits P (mret a : M A).
Proof. intros s. exists []. simpl. rewrite app_nil_r. split; [done | constructor]. Qed.

Lemma emits_bind {A B} P (m : M A) (f : A → M B) :
  emits P m → (∀ a, emits P (f a)) → emits P (m ≫= f).
Proof.
  intros Hm Hf s. rewrite bind_run.
  destruct (Hm s) as (t1 & Hlog1 & Ht1).
  destruct (m s) as [s1 [e|a]]; simpl in *.
  - exists t1. done.
  - destruct (Hf a s1) as (t2 & Hlog2 & Ht2).
    exists (t1 ++ t2). rewrite Hlog2, Hlog1, app_assoc.
    split; [done | by apply Forall_app].
Qed.

Lemma emits_try (P : Call → bool) c : P c = true → emits P (try c).
Proof.
  intros Hc s. rewrite try_run. simpl. eexists. split; [done|].
  constructor; [done | constructor].
Qed.

Lemma emits_addUser (P : Call → bool) u :
  P (CreateUser u) = true → emits P (addUser u).
Proof.
  intros Hc s. unfold addUser. rewrite bind_run, call_run.
  exists [(CreateUser u, errOf (handle (CreateUser u) (world s)).2)].
  split; [|constructor; [done | constructor]].
  destruct ((handle (CreateUser u) (world s)).2) as [e|a]; simpl; [|done].
  by destruct (isConflict e).
Qed.

Lemma emits_foldM {A B} P (body : B → A → M B) l b :
  (∀ b x, emits P (body b x)) → emits P (foldM body l b).
Proof.
  intros Hbody. revert b. induction l as [|x l IH]; intros b; simpl.
  - apply emits_ret.
  - apply emits_bind; [apply Hbody | apply IH].
Qed.

Lemma emits_forEach {A} P (l : list A) (body : A → M unit) :
  (∀ x, emits P (body x)) → emits P (forEach l body).
Proof. intros. by apply emits_foldM. Qed.

Ltac step_emits :=
  first
    [ apply emits_ret
    | apply emits_addUser; reflexivity
    | match goal with
      | |- emits ?P (try ?c) => apply (emits_try P c); reflexivity
      end
    | apply emits_forEach; intros
    | apply emits_foldM; intros
    | apply emits_bind; [|intros]
    | match goal with
      | |- emits _ (match ?x with _ => _ end) => destruct x
      | |- emits _ (if ?b then _ else _) => destruct b
      end ].

Ltac solve_emits := repeat step_emits.

Lemma emits_collect query : emits (allowed 0) (collect cfg query).
Proof.
  unfold collect, getGoogleGroupsAndUsers, getAWSGroupsAndUsers,
    collectGroup, collectMember, probeMember.
  solve_emits.
Qed.

Lemma emits_deleteUsers l : emits (allowed 1) (deleteUsers (W:=W) l).
Proof. unfold deleteUsers. solve_emits. Qed.

Lemma emits_updateUsers l : emits (allowed 2) (updateUsers (W:=W) l).
Proof. unfold updateUsers. solve_emits. Qed.

Lemma emits_addUsers l : emits (allowed 3) (addUsers (W:=W) l).
Proof. unfold addUsers. solve_emits. Qed.

Lemma emits_addGroups ggu l : emits (allowed 4) (addGroups (W:=W) ggu l).
Proof. unfold addGroups. solve_emits. Qed.

Lemma emits_equalGroups ggu del l : emits (allowed 5) (equalGroups (W:=W) ggu del l).
Proof. unfold equalGroups. solve_emits. Qed.

Lemma emits_deleteGroups l : emits (allowed 6) (deleteGroups (W:=W) l).
Proof. unfold deleteGroups. solve_emits. Qed.

(** *** Steps in sequence *)

Lemma phased_last {A} P (m : M A) : emits P m → phased [P] m.
Proof.
  intros Hm s. destruct (Hm s) as (t & Hlog & Ht).
  exists [t]. simpl. rewrite app_nil_r. split; [done|].
  constructor; [done | constructor].
Qed.

Lemma Forall2_nils (Ps : list (Call → bool)) :
  Forall2 (λ P t, Forall (λ ev : Event, P ev.1 = true) t) Ps
          (replicate (length Ps) []).
Proof. induction Ps; simpl; constructor; [constructor | done]. Qed.

Lemma concat_nils n : concat (replicate n ([] : list Event)) = [].
Proof. induction n; simpl; done. Qed.

Lemma phased_bind {A B} P Ps (m : M A) (f : A → M B) :
  emits P m → (∀ a, phased Ps (f a)) → phased (P :: Ps) (m ≫= f).
Proof.
  intros Hm Hf s. rewrite bind_run.
  destruct (Hm s) as (t1 & Hlog1 & Ht1).
  destruct (m s) as [s1 [e|a]]; simpl in *.
  - exists (t1 :: replicate (length Ps) []). simpl.
    rewrite concat_nils, app_nil_r. split; [done|].
    constructor; [done | apply Forall2_nils].
  - destruct (Hf a s1) as (ts & Hlog2 & Hts).
    exists (t1 :: ts). simpl. rewrite Hlog2, Hlog1, app_assoc.
    split; [done | by constructor].
Qed.

Lemma phased_applyChanges sn :
  phased [allowed 1; allowed 2; allowed 3; allowed 4; allowed 5; allowed 6]
         (applyChanges (W:=W) sn).
Proof.
  unfold applyChanges.
  apply phased_bind; [apply emits_deleteUsers | intros _].
  apply phased_bind; [apply emits_updateUsers | intros _].
  apply phased_bind; [apply emits_addUsers | intros _].
  apply phased_bind; [apply emits_addGroups | intros _].
  destruct (getGroupUsersOperations _ _) as [deleteUsersFromGroup ?].
  apply phased_bind; [apply emits_equalGroups | intros _].
  apply phased_last, emits_deleteGroups.
Qed.

Lemma phased_SyncGroupsUsers query :
  phased [allowed 0; allowed 1; allowed 2; allowed 3; allowed 4; allowed 5;
          allowed 6]
         (SyncGroupsUsers cfg query).
Proof.
  apply phased_bind; [apply emits_collect | apply phased_applyChanges].
Qed.

Lemma last_entry {X} (pre post t0 : list X) x y :
  pre ++ x :: post = t0 ++ [y] → (post = [] ∧ x = y) ∨ x ∈ t0.
Proof.
  destruct post as [|z post _] using rev_ind; intros Heq.
  - change (pre ++ [x] = t0 ++ [y]) in Heq.
    apply app_inj_tail in Heq as [_ ->]. by left.
  - right. rewrite app_comm_cons, app_assoc in Heq.
    apply app_inj_tail in Heq as [<- _].
    apply elem_of_app. right. apply elem_of_cons. by left.
Qed.

Lemma failsFast_first_error {A} (t : list Event) (r : error + A) pre c e post :
  failsFast t r → t = pre ++ (c, Some e) :: post →
  swallowed (c, Some e) = false → r = inl e ∧ post = [].
Proof.
  intros Hff -> Hsw.
  assert (¬ benign (c, Some e)) as Hnb.
  { intros [?|?]; simpl in *; congruence. }
  destruct r as [e'|a]; simpl in Hff.
  - destruct Hff as (t0 & c' & Heq & Ht0 & _).
    apply last_entry in Heq as [[-> [= -> ->]]|Hin]; [done|].
    rewrite Forall_forall in Ht0. by apply Ht0 in Hin.
  - rewrite Forall_forall in Hff. exfalso. apply Hnb, Hff.
    apply elem_of_app. right. apply elem_of_cons. by left.
Qed.

End TraceLemmas.

(** ** The claims about the pipeline *)

Section Pipeline.

Context {W : Type} `{!Client W}.

(** C8: every run of [SyncGroupsUsers] logs its calls in seven
    consecutive stretches (collection, then the six steps), each of which
    writes to the target only what its step may write; the world is what
    these calls left, nothing more and nothing undone; and an error that
    is not swallowed is the last call of the run and is what the run
    returns. *)
Theorem C8_fixed_order_and_abort (cfg : Config) (query : string) (s : State W) :
  ∃ t0 t1 t2 t3 t4 t5 t6,
    let run := SyncGroupsUsers cfg query s in
    let t := t0 ++ t1 ++ t2 ++ t3 ++ t4 ++ t5 ++ t6 in
    log run.1 = log s ++ t
    ∧ world run.1 = replay (world s) t
    ∧ Forall (λ ev, allowed 0 ev.1 = true) t0
    ∧ Forall (λ ev, allowed 1 ev.1 = true) t1
    ∧ Forall (λ ev, allowed 2 ev.1 = true) t2
    ∧ Forall (λ ev, allowed 3 ev.1 = true) t3
    ∧ Forall (λ ev, allowed 4 ev.1 = true) t4
    ∧ Forall (λ ev, allowed 5 ev.1 = true) t5
    ∧ Forall (λ ev, allowed 6 ev.1 = true) t6
    ∧ (∀ pre c e post,
         t = pre ++ (c, Some e) :: post → swallowed (c, Some e) = false →
         run.2 = inl e ∧ post = [])
    ∧ (∀ e, run.2 = inl e →
            ∃ pre c, t = pre ++ [(c, Some e)] ∧ swallowed (c, Some e) = false).
Proof.
  destruct (phased_SyncGroupsUsers cfg query s) as (ts & Hlog & Hts).
  destruct (tracks_SyncGroupsUsers cfg query s) as (t & Hlog' & Hworld & Hff).
  assert (t = concat ts) as -> by (apply (app_inv_head (log s)); congruence).
  repeat match goal with
         | H : Forall2 _ (_ :: _) _ |- _ =>
             apply Forall2_cons_inv_l in H as (? & ? & ? & H & ->)
         | H : Forall2 _ [] _ |- _ => apply Forall2_nil_inv_l in H as ->
         end.
  simpl in *. rewrite app_nil_r in *.
  do 7 eexists. repeat (split; [eassumption|]).
  split.
  - intros pre c e post Heq Hsw. by eapply failsFast_first_error.
  - intros e He. rewrite He in Hff. simpl in Hff.
    destruct Hff as (t0 & c & Heq & _ & Hsw). eauto.
Qed.


(** C10: in [SyncUsers], a user that is found at the target with an
    active flag different from the source's suspended flag costs one
    lookup and nothing else, whatever the names on the two sides are: no
    update is sent, and the loop goes on with the next user. *)
Theorem C10_names_alone_trigger_no_update (cfg : Config) (u : admin.User)
    (uu : aws.User) (rest : list admin.User) (s : State W) :
  (handle (FindUserByEmail (admin.PrimaryEmail u)) (world s)).2 = inr uu →
  aws.Active uu ≠ admin.Suspended u →
  let s' :=
    if ignoreUser cfg (admin.PrimaryEmail u) then s
    else mkState (handle (FindUserByEmail (admin.PrimaryEmail u)) (world s)).1
                 (log s ++ [(FindUserByEmail (admin.PrimaryEmail u), None)])
                 (<[aws.Username uu := uu]> (users s)) in
  syncUser cfg u s = (s', inr tt)
  ∧ forEach (u :: rest) (syncUser cfg) s = forEach rest (syncUser cfg) s'.
Proof.
  intros Hfound Hflags s'.
  assert (syncUser cfg u s = (s', inr tt)) as Hone.
  { subst s'. unfold syncUser.
    destruct (ignoreUser cfg (admin.PrimaryEmail u)); [done|].
    rewrite bind_run, call_run, Hfound. simpl.
    rewrite decide_False by done. reflexivity. }
  split; [done|].
  unfold forEach. cbn [foldM]. by rewrite bind_run, Hone.
Qed.

End Pipeline.


(** The renamed user of the scenario [renamedAtSource]: one lookup, no
    update. *)
Lemma C10_witness :
  syncUser noLists (admin.mkUser "d@x.com" "Diana" "Fox" false)
           (start (serve renamedAtSource))
  = (mkState (serve renamedAtSource)
             [(FindUserByEmail "d@x.com", None)]
             {["d@x.com" := aws.mkUser "u-4" "d@x.com" "Di" "Fox" true]},
     inr tt).
Proof.
  exact (proj1 (C10_names_alone_trigger_no_update noLists
                  (admin.mkUser "d@x.com" "Diana" "Fox" false)
                  (aws.mkUser "u-4" "d@x.com" "Di" "Fox" true) []
                  (start (serve renamedAtSource)) eq_refl
                  ltac:(discriminate))).
Defined.

(** A whole run over the scenario [createdMeanwhile]: the conflict is
    logged, the group is created and Ann is added to it, no error is
    returned. *)
Example run_createdMeanwhile :
  let run := SyncGroupsUsers noLists "" (start (serve createdMeanwhile)) in
  run.2 = inr tt
  ∧ log run.1
    = [ (GoogleGetGroups "", None);
        (GoogleGetGroupMembers eng, None);
        (GoogleGetUsers "email:a@x.com", None);
        (GetGroups, None);
        (GetUsers, None);
        (CreateUser (fromGoogle ann), Some (ErrHttpNotOK 409));
        (CreateGroup (aws.NewGroup "eng"), None);
        (FindUserByEmail "a@x.com", None);
        (AddUserToGroup annAws (aws.NewGroup "eng"), None) ].
Proof. by vm_compute. Qed.

(** ** Where the code departs from the specification *)

(** Step 2 looks every user of [update] up by username and sends back what
    the lookup returned: of the record the diff built, only the username is
    used. *)
Lemma updateUsers_by_username {W} `{!Client W} (l l' : list aws.User) (s : State W) :
  aws.Username <$> l = aws.Username <$> l' →
  updateUsers l s = updateUsers l' s.
Proof.
  revert l' s. induction l as [|u l IH]; intros [|u' l'] s Heq; try done.
  injection Heq as Hu Hl. unfold updateUsers, forEach in *. cbn [foldM].
  rewrite !bind_run, Hu.
  destruct (try (FindUserByEmail (aws.Username u')) s) as [s1 [e|full]]; [done|].
  destruct ((try (UpdateUser full) ≫= λ _, mret ()) s1) as [s2 [e|[]]]; [done|].
  by apply IH.
Qed.

(** C1 fails on the code: Cy is active at the target and suspended at the
    source.  The diff puts a record with active = false into [update], but
    the only write of the run is an [UpdateUser] of the record the target
    already holds, active = true. *)
Lemma C1_update_sends_target_record :
  let run := SyncGroupsUsers noLists "" (start (serve suspendedAtSource)) in
  uo_update (getUserOperations [cyAws] [cy]) = [aws.NewUser "Cy" "Dee" "c@x.com" false]
  ∧ run.2 = inr tt
  ∧ filter (λ ev, mutation ev.1 = true) (log run.1)
    = [(UpdateUser (aws.mkUser "u-3" "c@x.com" "Cy" "Dee" true), None)].
Proof. vm_compute. done. Qed.

(** C2 fails on the code: Bob is in the target's listing but not found when
    step 1 looks him up.  The run returns [ErrUserNotFound] after that
    lookup; Ann, new at the source, is never created. *)
Lemma C2_not_found_aborts :
  let run := SyncGroupsUsers noLists "" (start (serve staleListing)) in
  run.2 = inl ErrUserNotFound
  ∧ log run.1
    = [ (GoogleGetGroups "", None);
        (GoogleGetGroupMembers eng, None);
        (GoogleGetUsers "email:a@x.com", None);
        (GetGroups, None);
        (GetUsers, None);
        (FindUserByEmail "b@x.com", Some ErrUserNotFound) ].
Proof. vm_compute. done. Qed.

(** C9 fails on the code: Ann is a member under two addresses; both
    resolve to her, the map of unique users is keyed by the member address,
    and she is returned twice. *)
Lemma C9_one_user_two_addresses :
  (getGoogleGroupsAndUsers noLists [eng] (start (serve twoAddresses))).2
  = inr ([ann; ann], {["eng" := [ann; ann]]})
  ∧ ¬ NoDup (admin.PrimaryEmail <$> [ann; ann]).
Proof.
  split; [by vm_compute|].
  intros Hnd. apply NoDup_cons in Hnd as [Hnotin _].
  apply Hnotin. simpl. apply elem_of_cons. by left.
Qed.

(** * Further properties of the diff engine *)

Lemma omap_nil_iff {A B} (f : A → option B) (l : list A) :
  omap f l = [] ↔ ∀ x, x ∈ l → f x = None.
Proof.
  induction l as [|x l IH].
  - split; [intros _ y Hy; by apply elem_of_nil in Hy | done].
  - rewrite omap_head. split.
    + intros Heq y Hy. apply app_eq_nil in Heq as [Hx Hl].
      apply elem_of_cons in Hy as [->|Hy]; [by destruct (f x) | by apply IH].
    + intros Hall. rewrite (Hall x) by (apply elem_of_cons; by left). simpl.
      apply IH. intros y Hy. apply Hall, elem_of_cons. by right.
Qed.

Lemma awsGroupMap_Some awsGroups k a :
  NoDup (aws.DisplayName <$> awsGroups) →
  awsGroupMap awsGroups !! k = Some a ↔ a ∈ awsGroups ∧ aws.DisplayName a = k.
Proof.
  intros Hnd. split; [apply awsGroupMap_Some_key|].
  intros [Hin <-]. revert Hnd Hin.
  induction awsGroups as [|u l IH] using rev_ind; [by rewrite elem_of_nil|].
  rewrite fmap_app, NoDup_app, awsGroupMap_snoc, elem_of_app, list_elem_of_singleton.
  intros (Hl & Hdis & _) [Hin | ->].
  - rewrite lookup_insert_ne; [by apply IH|].
    intros Heq. apply (Hdis (aws.DisplayName a)).
    + by apply list_elem_of_fmap_2.
    + simpl. rewrite Heq. by apply list_elem_of_singleton.
  - by rewrite lookup_insert_eq.
Qed.

(** X1: [getGroupOperations] matches the [Name] of a Google group against
    the [DisplayName] of an AWS group.  A name at the source only gives a
    fresh group without identifier in [add]; a name on both sides gives the
    AWS record itself, identifier included, in [equals]; a display name at
    the target only gives a fresh group without identifier in [delete]. *)
Theorem getGroupOperations_classification (awsGroups : list aws.Group)
    (googleGroups : list admin.Group) :
  NoDup (aws.DisplayName <$> awsGroups) →
  let ops := getGroupOperations awsGroups googleGroups in
  (∀ x, x ∈ go_add ops ↔
        ∃ g, g ∈ googleGroups
             ∧ (admin.Name g ∉ aws.DisplayName <$> awsGroups)
             ∧ x = aws.NewGroup (admin.Name g))
  ∧ (∀ x, x ∈ go_equals ops ↔
          x ∈ awsGroups ∧ aws.DisplayName x ∈ admin.Name <$> googleGroups)
  ∧ (∀ x, x ∈ go_delete ops ↔
          ∃ a, a ∈ awsGroups
               ∧ (aws.DisplayName a ∉ admin.Name <$> googleGroups)
               ∧ x = aws.NewGroup (aws.DisplayName a)).
Proof.
  intros Hnd ops. subst ops. rewrite getGroupOperations_eq. simpl.
  split; [|split]; intros x; rewrite list_elem_of_omap.
  - split.
    + intros (g & Hg & Hx). exists g. unfold addGroupOf in Hx.
      destruct (awsGroupMap awsGroups !! _) eqn:Ha; [done|].
      apply awsGroupMap_None in Ha. by injection Hx as <-.
    + intros (g & Hg & Hk & ->). exists g. split; [done|].
      apply awsGroupMap_None in Hk. unfold addGroupOf. by rewrite Hk.
  - unfold equalGroupOf. split.
    + intros (g & Hg & Hx). apply awsGroupMap_Some_key in Hx as [Hx Hk].
      split; [done|]. rewrite Hk. by apply list_elem_of_fmap_2.
    + intros [Hx Hk]. apply list_elem_of_fmap in Hk as (g & Hk & Hg).
      exists g. split; [done|]. by apply awsGroupMap_Some.
  - split.
    + intros (a & Ha & Hx). exists a. unfold deleteGroupOf in Hx.
      destruct (decide _) as [|Hk]; [done|].
      rewrite googleGroupSet_elem_of in Hk. by injection Hx as <-.
    + intros (a & Ha & Hk & ->). exists a. split; [done|].
      unfold deleteGroupOf. rewrite decide_False; [done|].
      by rewrite googleGroupSet_elem_of.
Qed.

(** The scenario groups satisfy the assumption of X1. *)
Lemma getGroupOperations_classification_witness :
  aws.mkGroup "g-1" "ops" ∈ go_equals (getGroupOperations targetGroups sourceGroups).
Proof.
  assert (NoDup (aws.DisplayName <$> targetGroups)) as Hnd by compute_done.
  destruct (getGroupOperations_classification targetGroups sourceGroups Hnd)
    as (_ & Heq & _).
  apply Heq. split; compute_done.
Defined.

Lemma omap_three_lengths {A B} (f1 f2 f3 : A → option B) (l : list A) :
  (∀ x, exactlyOne [is_Some (f1 x); is_Some (f2 x); is_Some (f3 x)]) →
  length (omap f1 l) + length (omap f2 l) + length (omap f3 l) = length l.
Proof.
  intros Hone. induction l as [|x l IH]; [done|].
  rewrite !omap_head, !length_app. simpl length.
  specialize (Hone x). simpl in Hone. rewrite !Forall_cons in Hone.
  assert (∀ o : option B, ¬ is_Some o → length (option_list o) = 0) as Hn.
  { intros [b|] Ho; [destruct Ho; by eexists | done]. }
  assert (∀ o : option B, is_Some o → length (option_list o) = 1) as Hs.
  { by intros o [b ->]. }
  destruct Hone as [(H1 & H2 & H3 & _)|(H1 & [(H2 & H3 & _)|(H2 & [(H3 & _)|(_ & [])])])];
    repeat match goal with
           | H : is_Some _ |- _ => rewrite (Hs _ H); clear H
           | H : ¬ is_Some _ |- _ => rewrite (Hn _ H); clear H
           end; lia.
Qed.

Lemma omap_length_le {A B} (f : A → option B) (l : list A) :
  (length (omap f l) ≤ length l)%nat.
Proof.
  induction l as [|x l IH]; [done|].
  rewrite omap_head, length_app. destruct (f x); simpl; lia.
Qed.

Lemma getUserOperations_lengths (awsUsers : list aws.User)
    (googleUsers : list admin.User) :
  let uo := getUserOperations awsUsers googleUsers in
  length (uo_add uo) + length (uo_update uo) + length (uo_equals uo)
  = length googleUsers.
Proof.
  intros uo. subst uo. rewrite getUserOperations_eq. simpl.
  apply omap_three_lengths. intros g. simpl. rewrite !Forall_cons.
  unfold addOf, updateOf, equalOf.
  destruct (awsUserMap awsUsers !! _) as [a|]; [destruct (userMismatch a g)|];
    rewrite <- ?not_eq_None_Some; naive_solver.
Qed.

Lemma getGroupOperations_lengths (awsGroups : list aws.Group)
    (googleGroups : list admin.Group) :
  let go := getGroupOperations awsGroups googleGroups in
  length (go_add go) + length (go_equals go) = length googleGroups.
Proof.
  intros go. subst go. rewrite getGroupOperations_eq. simpl.
  pose proof (omap_three_lengths (addGroupOf (awsGroupMap awsGroups))
                (equalGroupOf (awsGroupMap awsGroups)) (λ _, None) googleGroups) as H.
  assert (length (omap (λ _ : admin.Group, @None aws.Group) googleGroups) = 0) as H0.
  { clear. induction googleGroups; [done|]. by rewrite omap_head. }
  rewrite H0 in H. rewrite <- H; [lia|].
  intros g. simpl. rewrite !Forall_cons. unfold addGroupOf, equalGroupOf.
  destruct (awsGroupMap awsGroups !! _); rewrite <- ?not_eq_None_Some; naive_solver.
Qed.

(** X2: whatever the snapshots are, duplicates included, every source
    user lands in exactly one of [add], [update], [equals] and every source
    group in exactly one of [add], [equals]: the sizes add up to the size of
    the source list.  [delete] never holds more entries than the target
    list. *)
Theorem operations_are_counted (awsUsers : list aws.User)
    (googleUsers : list admin.User) (awsGroups : list aws.Group)
    (googleGroups : list admin.Group) :
  let uo := getUserOperations awsUsers googleUsers in
  let go := getGroupOperations awsGroups googleGroups in
  length (uo_add uo) + length (uo_update uo) + length (uo_equals uo)
    = length googleUsers
  ∧ (length (uo_delete uo) ≤ length awsUsers)%nat
  ∧ length (go_add go) + length (go_equals go) = length googleGroups
  ∧ (length (go_delete go) ≤ length awsGroups)%nat.
Proof.
  intros uo go.
  split; [apply getUserOperations_lengths|].
  split; [subst uo; rewrite getUserOperations_eq; apply omap_length_le|].
  split; [apply getGroupOperations_lengths|].
  subst go. rewrite getGroupOperations_eq. apply omap_length_le.
Qed.

(** X3: the user diff is empty exactly on converged snapshots: [add],
    [update] and [delete] are all empty if and only if every source user has
    a target user of the same e-mail with active = !suspended and the same
    names, and every target user has its username among the source
    e-mails. *)
Theorem user_diff_empty_iff_converged (awsUsers : list aws.User)
    (googleUsers : list admin.User) :
  NoDup (aws.Username <$> awsUsers) →
  let ops := getUserOperations awsUsers googleUsers in
  uo_add ops = [] ∧ uo_update ops = [] ∧ uo_delete ops = []
  ↔ (∀ g, g ∈ googleUsers →
          ∃ a, a ∈ awsUsers
               ∧ aws.Username a = admin.PrimaryEmail g
               ∧ aws.Active a = negb (admin.Suspended g)
               ∧ aws.GivenName a = admin.GivenName g
               ∧ aws.FamilyName a = admin.FamilyName g)
    ∧ (∀ a, a ∈ awsUsers → aws.Username a ∈ admin.PrimaryEmail <$> googleUsers).
Proof.
  intros Hnd ops. subst ops. rewrite getUserOperations_eq. simpl.
  rewrite !omap_nil_iff. split.
  - intros (Hadd & Hupd & Hdel). split.
    + intros g Hg. specialize (Hadd g Hg). specialize (Hupd g Hg).
      unfold addOf in Hadd. unfold updateOf in Hupd.
      destruct (awsUserMap awsUsers !! _) as [a|] eqn:Ha; [|done].
      destruct (userMismatch a g) eqn:Hm; [done|].
      apply awsUserMap_Some_key in Ha as [Ha Hk]. apply userMismatch_false in Hm.
      exists a. tauto.
    + intros a Ha. specialize (Hdel a Ha). unfold deleteOf in Hdel.
      destruct (decide _) as [Hin|]; [|done]. by apply googleUserSet_elem_of.
  - intros [Hsrc Htgt]. split; [|split].
    + intros g Hg. destruct (Hsrc g Hg) as (a & Ha & Hk & _).
      unfold addOf. by rewrite (proj2 (awsUserMap_Some awsUsers _ a Hnd)).
    + intros g Hg. destruct (Hsrc g Hg) as (a & Ha & Hk & Hm).
      unfold updateOf. rewrite (proj2 (awsUserMap_Some awsUsers _ a Hnd)) by done.
      by rewrite (proj2 (userMismatch_false a g)).
    + intros a Ha. unfold deleteOf. rewrite decide_True; [done|].
      apply googleUserSet_elem_of. by apply Htgt.
Qed.

(** The converged scenario satisfies the assumption of X3. *)
Lemma user_diff_empty_iff_converged_witness :
  uo_add (getUserOperations targetUsersConverged sourceUsers) = []
  ∧ uo_update (getUserOperations targetUsersConverged sourceUsers) = []
  ∧ uo_delete (getUserOperations targetUsersConverged sourceUsers) = []
  ↔ (∀ g, g ∈ sourceUsers →
          ∃ a, a ∈ targetUsersConverged
               ∧ aws.Username a = admin.PrimaryEmail g
               ∧ aws.Active a = negb (admin.Suspended g)
               ∧ aws.GivenName a = admin.GivenName g
               ∧ aws.FamilyName a = admin.FamilyName g)
    ∧ (∀ a, a ∈ targetUsersConverged →
            aws.Username a ∈ admin.PrimaryEmail <$> sourceUsers).
Proof.
  apply (user_diff_empty_iff_converged targetUsersConverged sourceUsers).
  compute_done.
Defined.

(** X4: the group diff is empty exactly when the Google names and the AWS
    display names are the same set; [equals] then has one entry per Google
    group. *)
Theorem group_diff_empty_iff_same_names (awsGroups : list aws.Group)
    (googleGroups : list admin.Group) :
  let ops := getGroupOperations awsGroups googleGroups in
  (go_add ops = [] ∧ go_delete ops = []
   ↔ ∀ k, k ∈ admin.Name <$> googleGroups ↔ k ∈ aws.DisplayName <$> awsGroups)
  ∧ (go_add ops = [] ↔ length (go_equals ops) = length googleGroups).
Proof.
  intros ops.
  pose proof (getGroupOperations_lengths awsGroups googleGroups) as Hlen.
  simpl in Hlen. fold ops in Hlen.
  split; [|destruct (go_add ops); simpl in *; split; (done || lia)].
  subst ops. rewrite getGroupOperations_eq. simpl. clear Hlen.
  rewrite !omap_nil_iff. split.
  - intros [Hadd Hdel] k. split.
    + intros (g & -> & Hg)%list_elem_of_fmap. specialize (Hadd g Hg).
      unfold addGroupOf in Hadd.
      destruct (awsGroupMap awsGroups !! _) as [a|] eqn:Ha; [|done].
      apply awsGroupMap_Some_key in Ha as [Ha <-]. by apply list_elem_of_fmap_2.
    + intros (a & -> & Ha)%list_elem_of_fmap. specialize (Hdel a Ha).
      unfold deleteGroupOf in Hdel. destruct (decide _) as [Hin|]; [|done].
      by apply googleGroupSet_elem_of.
  - intros Hsame. split.
    + intros g Hg. unfold addGroupOf.
      destruct (awsGroupMap awsGroups !! _) eqn:Ha; [done|].
      apply awsGroupMap_None in Ha. exfalso. apply Ha, Hsame.
      by apply list_elem_of_fmap_2.
    + intros a Ha. unfold deleteGroupOf. rewrite decide_True; [done|].
      apply googleGroupSet_elem_of, Hsame. by apply list_elem_of_fmap_2.
Qed.

(** X5: for every group the membership diff splits the target member list
    into [delete] and [equals]: nothing is lost, nothing is added, nothing
    is in both. *)
Theorem membership_diff_splits (gGroupsUsers : gmap string (list admin.User))
    (awsGroupsUsers : gmap string (list aws.User)) (group : string) :
  let '(delete, equals) := getGroupUsersOperations gGroupsUsers awsGroupsUsers in
  sliceAt delete group ++ sliceAt equals group ≡ₚ sliceAt awsGroupsUsers group
  ∧ (∀ u, u ∈ sliceAt delete group → u ∉ sliceAt equals group).
Proof.
  pose proof (getGroupUsersOperations_spec gGroupsUsers awsGroupsUsers group) as H.
  destruct (getGroupUsersOperations gGroupsUsers awsGroupsUsers) as [delete equals].
  simpl in H. destruct H as [-> ->]. split.
  - rewrite (comm (++)).
    rewrite <- (filter_app_complement
                  (λ u, aws.Username u ∈ admin.PrimaryEmail <$> sliceAt gGroupsUsers group)
                  (sliceAt awsGroupsUsers group)) at 3.
    done.
  - intros u. rewrite !list_elem_of_filter. tauto.
Qed.

Lemma filter_keeps_all {A} (P : A → Prop) `{∀ x, Decision (P x)} (l : list A) :
  (∀ x, x ∈ l → P x) → filter P l = l.
Proof.
  induction l as [|x l IH]; intros Hall; [done|].
  rewrite filter_cons_True by (apply Hall, elem_of_cons; by left).
  f_equal. apply IH. intros y Hy. apply Hall, elem_of_cons. by right.
Qed.

Lemma filter_keeps_none {A} (P : A → Prop) `{∀ x, Decision (P x)} (l : list A) :
  (∀ x, x ∈ l → ¬ P x) → filter P l = [].
Proof.
  induction l as [|x l IH]; intros Hall; [done|].
  rewrite filter_cons_False by (apply Hall, elem_of_cons; by left).
  apply IH. intros y Hy. apply Hall, elem_of_cons. by right.
Qed.

(** X6: a group the source map has no entry for loses all its members:
    the whole target member list goes to [delete], none to [equals]; and a
    group the target map has no entry for gets neither. *)
Theorem membership_diff_missing_group (gGroupsUsers : gmap string (list admin.User))
    (awsGroupsUsers : gmap string (list aws.User)) (group : string) :
  gGroupsUsers !! group = None ∨ awsGroupsUsers !! group = None →
  let '(delete, equals) := getGroupUsersOperations gGroupsUsers awsGroupsUsers in
  sliceAt delete group = sliceAt awsGroupsUsers group ∧ sliceAt equals group = [].
Proof.
  intros Hmiss.
  pose proof (getGroupUsersOperations_spec gGroupsUsers awsGroupsUsers group) as H.
  destruct (getGroupUsersOperations gGroupsUsers awsGroupsUsers) as [delete equals].
  simpl in H. destruct H as [-> ->].
  destruct Hmiss as [Hg|Ha].
  - assert (sliceAt gGroupsUsers group = []) as Hnil by (unfold sliceAt; by rewrite Hg).
    split; [apply filter_keeps_all | apply filter_keeps_none];
      intros u _; rewrite Hnil; simpl; apply not_elem_of_nil || (intros ?; by apply not_elem_of_nil).
  - assert (sliceAt awsGroupsUsers group = []) as -> by (unfold sliceAt; by rewrite Ha).
    done.
Qed.

(** A target group without source entry. *)
Lemma membership_diff_missing_group_witness :
  let '(delete, equals) :=
    getGroupUsersOperations ∅ {["old" := [bobAws; cyAws]]} in
  sliceAt delete "old" = sliceAt {["old" := [bobAws; cyAws]]} "old"
  ∧ sliceAt equals "old" = [].
Proof.
  apply (membership_diff_missing_group ∅ {["old" := [bobAws; cyAws]]} "old").
  left. apply lookup_empty.
Defined.

(** X7: the three predicates of the filter policy are exact membership
    tests: an entry counts only when it is equal to the name as a whole. *)
Theorem filter_predicates_are_membership (cfg : Config) (name : string) :
  (ignoreUser cfg name = true ↔ name ∈ IgnoreUsers cfg)
  ∧ (ignoreGroup cfg name = true ↔ name ∈ IgnoreGroups cfg)
  ∧ (includeGroup cfg name = true ↔ name ∈ IncludeGroups cfg).
Proof. unfold ignoreUser, ignoreGroup, includeGroup. by rewrite !listed_elem_of. Qed.

(** * Further properties of the collectors and the pipeline *)

Section Scripts.

Context {W : Type} `{!Client W}.
Local Abbreviation M := (M W).

Lemma follows_ret {A} (a : A) : follows [] (mret a : M A).
Proof.
  intros s. exists []. simpl. rewrite app_nil_r. split; [done|].
  split; [done | constructor].
Qed.

Lemma follows_try c : follows [c] (try c).
Proof.
  intros s. rewrite try_run. simpl. eexists. split; [done|].
  destruct ((handle c (world s)).2) as [e|a]; simpl.
  - exists [], c. split; [done|]. split; [constructor | done].
  - split; [done|]. constructor; [done | constructor].
Qed.

Lemma follows_bind {A B} cs1 cs2 (m : M A) (f : A → M B) :
  follows cs1 m → (∀ a, follows cs2 (f a)) → follows (cs1 ++ cs2) (m ≫= f).
Proof.
  intros Hm Hf s. rewrite bind_run.
  destruct (Hm s) as (t1 & Hlog1 & Hs1).
  destruct (m s) as [s1 [e|a]]; simpl in *.
  - exists t1. split; [done|].
    destruct Hs1 as (t0 & c & -> & Ht0 & Hpre). exists t0, c.
    split; [done|]. split; [done|]. by apply prefix_app_r.
  - destruct Hs1 as [Hcs1 Hok1].
    destruct (Hf a s1) as (t2 & Hlog2 & Hs2).
    exists (t1 ++ t2). rewrite Hlog2, Hlog1, app_assoc. split; [done|].
    destruct ((f a s1).2) as [e|b]; simpl in *.
    + destruct Hs2 as (t0 & c & -> & Ht0 & Hpre).
      exists (t1 ++ t0), c. rewrite app_assoc. split; [done|].
      split; [by apply Forall_app|].
      rewrite <- app_assoc, fmap_app, Hcs1. by apply prefix_app.
    + destruct Hs2 as [Hcs2 Hok2]. rewrite fmap_app, Hcs1, Hcs2.
      split; [done | by apply Forall_app].
Qed.

Lemma follows_foldM {A B} (script : A → list Call) (body : B → A → M B) l b :
  (∀ b x, follows (script x) (body b x)) →
  follows (x ← l; script x) (foldM body l b).
Proof.
  intros Hbody. revert b. induction l as [|x l IH]; intros b; simpl.
  - apply follows_ret.
  - apply follows_bind; [apply Hbody | apply IH].
Qed.

Lemma follows_probeMember awsGroup users user :
  follows [IsUserInGroup user awsGroup] (probeMember (W:=W) awsGroup users user).
Proof.
  unfold probeMember.
  change [IsUserInGroup user awsGroup] with ([IsUserInGroup user awsGroup] ++ []).
  apply follows_bind; [apply (follows_try (IsUserInGroup user awsGroup))|].
  intros []; apply follows_ret.
Qed.

Lemma follows_getAWSGroupsAndUsers awsGroups awsUsers :
  follows (probes awsGroups awsUsers) (getAWSGroupsAndUsers (W:=W) awsGroups awsUsers).
Proof.
  unfold getAWSGroupsAndUsers, probes.
  apply (follows_foldM (λ awsGroup, awsUser ← awsUsers; [IsUserInGroup awsUser awsGroup])).
  intros acc awsGroup.
  rewrite <- (app_nil_r (awsUser ← awsUsers; [IsUserInGroup awsUser awsGroup])).
  apply follows_bind; [|intros; apply follows_ret].
  apply (follows_foldM (λ awsUser, [IsUserInGroup awsUser awsGroup])).
  intros. apply follows_probeMember.
Qed.

Lemma length_probes awsGroups awsUsers :
  length (probes awsGroups awsUsers) = length awsGroups * length awsUsers.
Proof.
  unfold probes. induction awsGroups as [|g l IH]; [done|].
  rewrite bind_cons, length_app, IH. simpl. f_equal.
  clear. induction awsUsers as [|u l IH]; [done|].
  rewrite bind_cons, length_app, IH. done.
Qed.

(** X8: [getAWSGroupsAndUsers] asks the target once for every pair of a
    listed group and a listed user, group by group, and makes no other call:
    a run without error makes (number of groups) x (number of users) probes;
    a failed run stops at the probe that failed and returns its error. *)
Theorem getAWSGroupsAndUsers_probes_every_pair (awsGroups : list aws.Group)
    (awsUsers : list aws.User) (s : State W) :
  let run := getAWSGroupsAndUsers awsGroups awsUsers s in
  ∃ t, log run.1 = log s ++ t
       ∧ match run.2 with
         | inr _ => t.*1 = probes awsGroups awsUsers
                    ∧ length t = length awsGroups * length awsUsers
         | inl e => ∃ t0 c, t = t0 ++ [(c, Some e)]
                            ∧ t.*1 `prefix_of` probes awsGroups awsUsers
         end.
Proof.
  intros run. subst run.
  destruct (follows_getAWSGroupsAndUsers awsGroups awsUsers s) as (t & Hlog & Hs).
  exists t. split; [done|].
  destruct ((getAWSGroupsAndUsers awsGroups awsUsers s).2) as [e|m]; simpl in Hs.
  - destruct Hs as (t0 & c & -> & _ & Hpre). eauto.
  - destruct Hs as [Hcs _]. split; [done|].
    by rewrite <- length_probes, <- Hcs, length_fmap.
Qed.

End Scripts.

Section Results.

Context {W : Type} `{!Client W}.
Local Abbreviation M := (M W).

Lemma yields_ret {A} I (a : A) (Q : error + A → Prop) :
  Q (inr a) → yields I (mret a : M A) Q.
Proof. intros Ha s Hs. done. Qed.

Lemma yields_bind {A B} I (m : M A) (f : A → M B) (Q1 : error + A → Prop)
    (Q2 : error + B → Prop) :
  yields I m Q1 →
  (∀ e, Q1 (inl e) → Q2 (inl e)) →
  (∀ a, Q1 (inr a) → yields I (f a) Q2) →
  yields I (m ≫= f) Q2.
Proof.
  intros Hm Herr Hf s Hs. rewrite bind_run.
  destruct (Hm s Hs) as [Hw Hq]. destruct (m s) as [s1 [e|a]]; simpl in *.
  - split; [done | by apply Herr].
  - by apply Hf.
Qed.

Lemma yields_try I c (Q : error + ans c → Prop) :
  stable I → (∀ w, I w → Q (handle c w).2) → yields I (try c) Q.
Proof.
  intros Hst Hq s Hs. rewrite try_run. simpl. split; [by apply Hst | by apply Hq].
Qed.

Lemma yields_weaken {A} I (m : M A) (Q Q' : error + A → Prop) :
  yields I m Q → (∀ r, Q r → Q' r) → yields I m Q'.
Proof. intros Hm Hq s Hs. destruct (Hm s Hs). split; [done | by apply Hq]. Qed.

(** A loop whose invariant may mention the part of the slice already
    visited. *)
Lemma yields_foldM {A B} I (Inv : list A → B → Prop) (F : error → Prop)
    (body : B → A → M B) (l pre : list A) (b : B) :
  (∀ pre x b, Inv pre b →
     yields I (body b x)
            (λ r, match r with inr b' => Inv (pre ++ [x]) b' | inl e => F e end)) →
  Inv pre b →
  yields I (foldM body l b)
         (λ r, match r with inr b' => Inv (pre ++ l) b' | inl e => F e end).
Proof.
  intros Hbody. revert pre b. induction l as [|x l IH]; intros pre b Hinv; simpl.
  - rewrite app_nil_r. by apply yields_ret.
  - eapply yields_bind; [by apply Hbody | done |].
    intros b' Hb'. simpl in Hb'.
    replace (pre ++ x :: l) with ((pre ++ [x]) ++ l) by by rewrite <- app_assoc.
    by apply IH.
Qed.

(** *** What [getAWSGroupsAndUsers] returns *)

Section Members.

Context (I : W → Prop) (isMember : aws.User → aws.Group → bool).
Hypothesis I_stable : stable I.
Hypothesis I_isMember :
  ∀ w u g, I w → (handle (IsUserInGroup u g) w).2 = inr (isMember u g).




End Members.


(** *** What [getGoogleGroupsAndUsers] returns *)

Lemma range_values {V} (m : gmap string V) :
  foldl (λ acc '(_, v), acc ++ [v]) [] (rangeMap m) = (map_to_list m).*2.
Proof.
  unfold rangeMap.
  assert (∀ (l : list (string * V)) acc,
            foldl (λ acc '(_, v), acc ++ [v]) acc l = acc ++ l.*2) as H.
  { induction l as [|[k v] l IH]; intros acc; simpl.
    - by rewrite app_nil_r.
    - rewrite IH. by rewrite <- app_assoc. }
  by rewrite H.
Qed.

Lemma keyedByEmail_NoDup (gUniqUsers : gmap string admin.User) :
  keyedByEmail gUniqUsers →
  NoDup (admin.PrimaryEmail <$> (map_to_list gUniqUsers).*2).
Proof.
  intros Hkeyed.
  assert (admin.PrimaryEmail <$> (map_to_list gUniqUsers).*2
          = (map_to_list gUniqUsers).*1) as ->.
  { assert (∀ kv, kv ∈ map_to_list gUniqUsers → admin.PrimaryEmail kv.2 = kv.1) as H.
    { intros [k u] Hin. apply elem_of_map_to_list in Hin. by apply Hkeyed. }
    induction (map_to_list gUniqUsers) as [|kv l IH]; [done|].
    simpl. rewrite H by (apply elem_of_cons; by left).
    f_equal. apply IH. intros kv' Hin. apply H, elem_of_cons. by right. }
  apply NoDup_fst_map_to_list.
Qed.

Section Lookups.

Context (cfg : Config) (I : W → Prop).
Hypothesis I_stable : stable I.
Hypothesis I_lookup :
  ∀ w address u0 us, I w →
    (handle (GoogleGetUsers ("email:" +:+ address)) w).2 = inr (u0 :: us) →
    admin.PrimaryEmail u0 = address.

Lemma yields_collectMember membersUsers gUniqUsers m :
  keyedByEmail gUniqUsers →
  yields I (collectMember cfg (membersUsers, gUniqUsers) m)
    (ifReturning (λ acc, keyedByEmail acc.2)).
Proof.
  intros Hkeyed. unfold collectMember.
  destruct (ignoreUser cfg (admin.MEmail m)); [by apply yields_ret|].
  destruct (decide (admin.Type_ m = "GROUP")); [by apply yields_ret|].
  eapply yields_bind.
  - apply (yields_try I (GoogleGetUsers ("email:" +:+ admin.MEmail m))
             (ifReturning (λ u, ∀ u0 us, u = u0 :: us →
                                  admin.PrimaryEmail u0 = admin.MEmail m))); [done|].
    intros w Hw. destruct ((handle _ w).2) as [e|u] eqn:Hr; simpl; [done|].
    intros u0 us ->. by eapply I_lookup.
  - done.
  - intros [|u0 us] Hu; apply yields_ret; simpl; [done|].
    destruct (gUniqUsers !! admin.MEmail m) eqn:Hk; [done|].
    intros k u. destruct (decide (admin.MEmail m = k)) as [<-|Hne].
    + rewrite lookup_insert_eq. intros [= <-]. by eapply Hu.
    + rewrite lookup_insert_ne by done. apply Hkeyed.
Qed.

Lemma yields_collectGroup gGroupsUsers gUniqUsers g :
  keyedByEmail gUniqUsers →
  yields I (collectGroup cfg (gGroupsUsers, gUniqUsers) g)
    (ifReturning (λ acc, keyedByEmail acc.2)).
Proof.
  intros Hkeyed. unfold collectGroup.
  destruct (ignoreGroup cfg (admin.Email g)); [by apply yields_ret|].
  eapply yields_bind.
  - apply (yields_try I (GoogleGetGroupMembers g) (λ _, True)); done.
  - done.
  - intros groupMembers _. eapply yields_bind.
    + apply (yields_foldM I (λ _ acc, keyedByEmail acc.2) (λ _, True)
               _ groupMembers []); [|done].
      intros pre m [mu uniq] Hacc. eapply yields_weaken.
      * by apply yields_collectMember.
      * by intros [e|acc].
    + done.
    + intros [membersUsers uniq] Hacc. by apply yields_ret.
Qed.

Lemma yields_getGoogleGroupsAndUsers googleGroups :
  yields I (getGoogleGroupsAndUsers cfg googleGroups)
    (ifReturning (λ res, NoDup (admin.PrimaryEmail <$> res.1))).
Proof.
  unfold getGoogleGroupsAndUsers. eapply yields_bind.
  - apply (yields_foldM I (λ _ acc, keyedByEmail acc.2) (λ _, True)
             _ googleGroups []); [|by (intros k u; simpl; rewrite lookup_empty)].
    intros pre g [ggu uniq] Hacc. eapply yields_weaken.
    + by apply yields_collectGroup.
    + by intros [e|acc].
  - done.
  - intros [gGroupsUsers gUniqUsers] Hkeyed. apply yields_ret. simpl.
    rewrite range_values. by apply keyedByEmail_NoDup.
Qed.

End Lookups.

(** X10: when every look-up of a member address answers with the user
    whose primary e-mail is that address (in the worlds the run can reach),
    the user list [getGoogleGroupsAndUsers] returns holds no primary e-mail
    twice, however many groups a user is a member of. *)
Theorem getGoogleGroupsAndUsers_unique_when_addresses_are_primary
    (cfg : Config) (I : W → Prop) (googleGroups : list admin.Group) (s : State W) :
  stable I → I (world s) →
  (∀ w address u0 us, I w →
     (handle (GoogleGetUsers ("email:" +:+ address)) w).2 = inr (u0 :: us) →
     admin.PrimaryEmail u0 = address) →
  ifReturning (λ res, NoDup (admin.PrimaryEmail <$> res.1))
              (getGoogleGroupsAndUsers cfg googleGroups s).2.
Proof.
  intros Hst Hs Hlookup.
  by destruct (yields_getGoogleGroupsAndUsers cfg I Hst Hlookup googleGroups s Hs).
Qed.

(** *** The snapshot [SyncGroupsUsers] works on *)

Lemma stable_True : stable (λ _ : W, True).
Proof. done. Qed.

Lemma filtered_groups cfg (l : list admin.Group) acc :
  foldl (λ filtered g,
           if ignoreGroup cfg (admin.Email g) then filtered else filtered ++ [g])
        acc l
  = acc ++ filter (λ g, ignoreGroup cfg (admin.Email g) = false) l.
Proof.
  revert acc. induction l as [|g l IH]; intros acc; simpl.
  - by rewrite app_nil_r.
  - rewrite IH, filter_cons. destruct (ignoreGroup cfg (admin.Email g)).
    + by rewrite decide_False.
    + rewrite decide_True by done. by rewrite <- app_assoc.
Qed.

Lemma yields_google_keys cfg googleGroups :
  yields (λ _, True) (getGoogleGroupsAndUsers cfg googleGroups)
    (ifReturning (λ res,
       ∀ k, is_Some (res.2 !! k) ↔
            k ∈ admin.Name <$>
                filter (λ g, ignoreGroup cfg (admin.Email g) = false) googleGroups)).
Proof.
  unfold getGoogleGroupsAndUsers. eapply yields_bind.
  - apply (yields_foldM (λ _, True)
             (λ pre acc, ∀ k, is_Some (acc.1 !! k) ↔
                k ∈ admin.Name <$>
                    filter (λ g, ignoreGroup cfg (admin.Email g) = false) pre)
             (λ _, True) _ googleGroups []).
    + intros pre g [ggu uniq] Hacc. simpl in Hacc. unfold collectGroup.
      rewrite filter_app, filter_cons, filter_nil.
      destruct (ignoreGroup cfg (admin.Email g)).
      * rewrite decide_False by done. apply yields_ret. by rewrite app_nil_r.
      * rewrite decide_True by done.
        eapply yields_bind;
          [apply (yields_try _ (GoogleGetGroupMembers g) (λ _, True)); done | done |].
        intros groupMembers _. eapply yields_bind.
        -- apply (yields_weaken _ _ (λ _, True) (λ _, True)); [|done].
           intros s _. done.
        -- done.
        -- intros [mu uniq'] _. apply yields_ret. simpl. intros k.
           rewrite fmap_app, elem_of_app, <- Hacc. simpl.
           rewrite list_elem_of_singleton, lookup_insert_is_Some. 
           destruct (decide (admin.Name g = k)); intuition congruence.
    + intros k. simpl. rewrite lookup_empty, elem_of_nil.
      split; [by intros [? ?] | done].
  - done.
  - intros [gGroupsUsers gUniqUsers] Hkeys. by apply yields_ret.
Qed.

Lemma yields_aws_keys (awsGroups : list aws.Group) (awsUsers : list aws.User) :
  yields (λ _, True) (getAWSGroupsAndUsers awsGroups awsUsers)
    (ifReturning (λ m,
       (∀ k, is_Some (m !! k) ↔ k ∈ aws.DisplayName <$> awsGroups)
       ∧ (∀ k us u, m !! k = Some us → u ∈ us → u ∈ awsUsers))).
Proof.
  unfold getAWSGroupsAndUsers.
  eapply yields_weaken.
  - apply (yields_foldM (λ _, True)
             (λ pre m,
                (∀ k, is_Some (m !! k) ↔ k ∈ aws.DisplayName <$> pre)
                ∧ (∀ k us u, m !! k = Some us → u ∈ us → u ∈ awsUsers))
             (λ _, True) _ awsGroups []).
    + intros pre g m [Hkeys Hvals]. eapply yields_bind.
      * apply (yields_foldM (λ _, True) (λ pre' l, ∀ u, u ∈ l → u ∈ pre')
                 (λ _, True) _ awsUsers []).
        -- intros pre' x l Hl. unfold probeMember. eapply yields_bind;
             [apply (yields_try _ (IsUserInGroup x g) (λ _, True)); done | done |].
           intros [] _; apply yields_ret; intros u; rewrite ?elem_of_app;
             rewrite ?list_elem_of_singleton; intros H; specialize (Hl u); tauto.
        -- intros u Hu. by apply elem_of_nil in Hu.
      * done.
      * intros l Hl. simpl in Hl. apply yields_ret. split.
        -- intros k. rewrite fmap_app, elem_of_app, <- Hkeys. simpl.
           rewrite list_elem_of_singleton, lookup_insert_is_Some.
           destruct (decide (aws.DisplayName g = k)); intuition congruence.
        -- intros k us u. destruct (decide (aws.DisplayName g = k)) as [<-|Hne].
           ++ rewrite lookup_insert_eq. intros [= <-]. apply Hl.
           ++ rewrite lookup_insert_ne by done. apply Hvals.
    + split; [|by intros k us u; rewrite lookup_empty].
      intros k. rewrite lookup_empty, elem_of_nil. split; [by intros [? ?] | done].
  - by intros [e|m].
Qed.

(** X12: the snapshot [SyncGroupsUsers] collects is consistent: none of
    its Google groups is on the ignore-list; the source member map has an
    entry exactly for the names of its Google groups and the target member
    map exactly for the display names of its AWS groups; and every member
    of a target group is one of its AWS users. *)
Theorem collect_snapshot_is_consistent (cfg : Config) (query : string) (s : State W) :
  ifReturning (λ sn : Snapshot,
      Forall (λ g, ignoreGroup cfg (admin.Email g) = false) (googleGroups sn)
      ∧ (∀ k, is_Some (googleGroupsUsers sn !! k) ↔
              k ∈ admin.Name <$> googleGroups sn)
      ∧ (∀ k, is_Some (awsGroupsUsers sn !! k) ↔
              k ∈ aws.DisplayName <$> awsGroups sn)
      ∧ (∀ k us u, awsGroupsUsers sn !! k = Some us → u ∈ us → u ∈ awsUsers sn))
    (collect cfg query s).2.
Proof.
  assert (yields (λ _, True) (collect cfg query) (ifReturning (λ sn : Snapshot,
      Forall (λ g, ignoreGroup cfg (admin.Email g) = false) (googleGroups sn)
      ∧ (∀ k, is_Some (googleGroupsUsers sn !! k) ↔
              k ∈ admin.Name <$> googleGroups sn)
      ∧ (∀ k, is_Some (awsGroupsUsers sn !! k) ↔
              k ∈ aws.DisplayName <$> awsGroups sn)
      ∧ (∀ k us u, awsGroupsUsers sn !! k = Some us → u ∈ us → u ∈ awsUsers sn))))
    as H; [|by apply H].
  unfold collect.
  eapply yields_bind;
    [apply (yields_try _ (GoogleGetGroups query) (λ _, True)); done | done |].
  intros listed _. rewrite filtered_groups. simpl.
  eapply yields_bind; [apply yields_google_keys | done |].
  intros [gUsers gGroupsUsers] Hgkeys. simpl in Hgkeys.
  rewrite list_filter_filter in Hgkeys.
  eapply yields_bind;
    [apply (yields_try _ GetGroups (λ _, True)); done | done |].
  intros aGroups _.
  eapply yields_bind;
    [apply (yields_try _ GetUsers (λ _, True)); done | done |].
  intros aUsers _.
  eapply yields_bind; [apply yields_aws_keys | done |].
  intros m [Hkeys Hvals]. apply yields_ret. simpl.
  split; [|split; [|done]].
  - apply Forall_forall. intros g Hg. by apply list_elem_of_filter in Hg as [? _].
  - intros k. rewrite Hgkeys. 
    assert (∀ l : list admin.Group,
              filter (λ x, ignoreGroup cfg (admin.Email x) = false
                           ∧ ignoreGroup cfg (admin.Email x) = false) l
              = filter (λ g, ignoreGroup cfg (admin.Email g) = false) l) as ->; [|done].
    intros l. apply list_filter_iff. tauto.
Qed.

End Results.

Section Issues.

Context {W : Type} `{!Client W}.
Local Abbreviation M := (M W).

Lemma issues_ret {A} P (a : A) : issues P (mret a : M A).
Proof. intros s. exists []. simpl. rewrite app_nil_r. split; [done | constructor]. Qed.

Lemma issues_bind {A B} P (m : M A) (f : A → M B) :
  issues P m → (∀ a, issues P (f a)) → issues P (m ≫= f).
Proof.
  intros Hm Hf s. rewrite bind_run.
  destruct (Hm s) as (t1 & Hlog1 & Ht1).
  destruct (m s) as [s1 [e|a]]; simpl in *.
  - exists t1. done.
  - destruct (Hf a s1) as (t2 & Hlog2 & Ht2).
    exists (t1 ++ t2). rewrite Hlog2, Hlog1, app_assoc.
    split; [done | by apply Forall_app].
Qed.

Lemma issues_try (P : Call → Prop) c : P c → issues P (try c).
Proof.
  intros Hc s. rewrite try_run. simpl. eexists. split; [done|].
  constructor; [done | constructor].
Qed.


Lemma issues_foldM {A B} P (body : B → A → M B) l b :
  (∀ b x, x ∈ l → issues P (body b x)) → issues P (foldM body l b).
Proof.
  revert b. induction l as [|x l IH]; intros b Hbody; simpl.
  - apply issues_ret.
  - apply issues_bind.
    + apply Hbody, elem_of_cons. by left.
    + intros b'. apply IH. intros b'' y Hy. apply Hbody, elem_of_cons. by right.
Qed.

Lemma issues_forEach {A} P (l : list A) (body : A → M unit) :
  (∀ x, x ∈ l → issues P (body x)) → issues P (forEach l body).
Proof. intros Hbody. apply issues_foldM. intros _ x. apply Hbody. Qed.

(** *** The calls of the Google collector *)

Lemma issues_collectMember cfg acc m :
  issues (collectorCall cfg) (collectMember cfg acc m).
Proof.
  unfold collectMember. destruct acc as [membersUsers gUniqUsers].
  destruct (ignoreUser cfg (admin.MEmail m)) eqn:Hign; [apply issues_ret|].
  destruct (decide (admin.Type_ m = "GROUP")); [apply issues_ret|].
  apply issues_bind.
  - apply (issues_try _ (GoogleGetUsers ("email:" +:+ admin.MEmail m))).
    simpl. by exists (admin.MEmail m).
  - intros [|u0 us]; apply issues_ret.
Qed.

Lemma issues_collectGroup cfg acc g :
  issues (collectorCall cfg) (collectGroup cfg acc g).
Proof.
  unfold collectGroup. destruct acc as [gGroupsUsers gUniqUsers].
  destruct (ignoreGroup cfg (admin.Email g)) eqn:Hign; [apply issues_ret|].
  apply issues_bind; [by apply (issues_try _ (GoogleGetGroupMembers g))|].
  intros groupMembers. apply issues_bind.
  - apply issues_foldM. intros. apply issues_collectMember.
  - intros [? ?]. apply issues_ret.
Qed.

(** X11: [getGoogleGroupsAndUsers] talks to the source only: it asks for
    the members of groups that are not on the ignore-list, and looks up,
    with the query [email:<address>], member addresses that are not on the
    ignore-list of users; it makes no other call. *)
Theorem getGoogleGroupsAndUsers_respects_ignore_lists (cfg : Config)
    (googleGroups : list admin.Group) (s : State W) :
  ∃ t, log (getGoogleGroupsAndUsers cfg googleGroups s).1 = log s ++ t
       ∧ Forall (λ ev, collectorCall cfg ev.1) t.
Proof.
  revert s. change (issues (collectorCall cfg) (getGoogleGroupsAndUsers cfg googleGroups)).
  unfold getGoogleGroupsAndUsers. apply issues_bind.
  - apply issues_foldM. intros. apply issues_collectGroup.
  - intros [? ?]. apply issues_ret.
Qed.

(** *** What [SyncGroupsUsers] may write *)






End Issues.

(** * Further properties of the alternate method *)

Section Alternate.

Context {W : Type} `{!Client W}.
Local Abbreviation M := (M W).

Lemma try_after c (s : State W) : try c s = (after c s, (handle c (world s)).2).
Proof. apply try_run. Qed.

Lemma call_after c (s : State W) : call c s = (after c s, inr (handle c (world s)).2).
Proof. apply call_run. Qed.

(** X13: in [SyncUsers], a user deleted at the source that the target does
    not find is skipped: the look-up is the only call made for it, and the
    loop goes on with the next deleted user. *)
Theorem dropDeleted_skips_user_not_found (u : admin.User) (rest : list admin.User)
    (s : State W) :
  (handle (FindUserByEmail (admin.PrimaryEmail u)) (world s)).2 = inl ErrUserNotFound →
  forEach (u :: rest) dropDeleted s
  = forEach rest dropDeleted (after (FindUserByEmail (admin.PrimaryEmail u)) s).
Proof.
  intros Hnf. unfold forEach. cbn [foldM]. rewrite bind_run.
  unfold dropDeleted at 1. rewrite bind_run, call_after, Hnf. reflexivity.
Qed.


(** X15: in [SyncUsers], a user found at the target whose active flag
    equals the source's suspended flag is updated with a record that
    carries the identifier of the record found and the given name, family
    name, e-mail and active = !suspended of the source; the index keeps the
    record as it was found. *)
Theorem syncUser_updates_with_source_attributes (cfg : Config) (u : admin.User)
    (uu : aws.User) (s : State W) :
  ignoreUser cfg (admin.PrimaryEmail u) = false →
  (handle (FindUserByEmail (admin.PrimaryEmail u)) (world s)).2 = inr uu →
  aws.Active uu = admin.Suspended u →
  let s1 := mkState (handle (FindUserByEmail (admin.PrimaryEmail u)) (world s)).1
                    (log s ++ [(FindUserByEmail (admin.PrimaryEmail u), None)])
                    (<[aws.Username uu := uu]> (users s)) in
  let record := aws.mkUser (aws.ID uu) (admin.PrimaryEmail u) (admin.GivenName u)
                           (admin.FamilyName u) (negb (admin.Suspended u)) in
  syncUser cfg u s
  = (after (UpdateUser record) s1,
     match (handle (UpdateUser record) (world s1)).2 with
     | inr _ => inr tt
     | inl err => inl err
     end).
Proof.
  intros Hign Hfound Hflags s1 record. subst s1. unfold syncUser. rewrite Hign.
  rewrite bind_run, call_after. unfold after.
  destruct (handle (FindUserByEmail (admin.PrimaryEmail u)) (world s)) as [w1 r1].
  simpl in Hfound. subst r1. simpl. rewrite decide_True by done.
  rewrite bind_run. unfold setUser. cbv beta iota.
  rewrite bind_run, try_after. unfold after. simpl.
  change (aws.UpdateUser (aws.ID uu) (admin.GivenName u) (admin.FamilyName u)
            (admin.PrimaryEmail u) (negb (admin.Suspended u))) with record.
  by destruct (handle (UpdateUser record) w1) as [w [err|?]].
Qed.

Lemma forEach_all_skipped {A} (l : list A) (body : A → M unit) (s : State W) :
  (∀ x, x ∈ l → body x = mret tt) → forEach l body s = (s, inr tt).
Proof.
  unfold forEach. induction l as [|x l IH]; intros Hskip; [done|].
  cbn [foldM]. rewrite bind_run, (Hskip x) by (apply elem_of_cons; by left).
  simpl. apply IH. intros y Hy. apply Hskip, elem_of_cons. by right.
Qed.

(** X17: without include-list, [SyncGroups] lists the Google groups and
    does nothing else, whatever groups there are: no group is looked up,
    created or given members. *)
Theorem SyncGroups_without_include_list (cfg : Config) (query : string) (s : State W) :
  IncludeGroups cfg = [] →
  SyncGroups cfg query s
  = (after (GoogleGetGroups query) s,
     match (handle (GoogleGetGroups query) (world s)).2 with
     | inr _ => inr tt
     | inl err => inl err
     end).
Proof.
  intros Hempty. unfold SyncGroups. rewrite bind_run, try_after.
  destruct ((handle (GoogleGetGroups query) (world s)).2) as [err|groups]; [done|].
  apply forEach_all_skipped. intros g _. unfold syncGroup.
  unfold SyncGroups_skips, includeGroup. rewrite Hempty. simpl.
  by rewrite orb_true_r.
Qed.

Lemma deleteUsers_by_username (l l' : list aws.User) (s : State W) :
  aws.Username <$> l = aws.Username <$> l' → deleteUsers l s = deleteUsers l' s.
Proof.
  revert l' s. induction l as [|u l IH]; intros [|u' l'] s Heq; try done.
  injection Heq as Hu Hl. unfold deleteUsers, forEach in *. cbn [foldM].
  rewrite !bind_run, Hu.
  destruct (try (FindUserByEmail (aws.Username u')) s) as [s1 [e|full]]; [done|].
  destruct (try (DeleteUser full) s1) as [s2 [e|[]]]; [done|].
  by apply IH.
Qed.

Lemma deleteGroups_by_name (l l' : list aws.Group) (s : State W) :
  aws.DisplayName <$> l = aws.DisplayName <$> l' → deleteGroups l s = deleteGroups l' s.
Proof.
  revert l' s. induction l as [|u l IH]; intros [|u' l'] s Heq; try done.
  injection Heq as Hu Hl. unfold deleteGroups, forEach in *. cbn [foldM].
  rewrite !bind_run, Hu.
  destruct (try (FindGroupByDisplayName (aws.DisplayName u')) s)
    as [s1 [e|full]]; [done|].
  destruct (try (DeleteGroup full) s1) as [s2 [e|[]]]; [done|].
  by apply IH.
Qed.

(** X21: the two deleting steps of [SyncGroupsUsers] use of their
    arguments only the keys: users are deleted by username and groups by
    display name, through the record a fresh look-up returns, so the
    records of the diff, which carry no identifier, never reach the
    target. *)
Theorem deleting_steps_go_by_key (users users' : list aws.User)
    (groups groups' : list aws.Group) (s : State W) :
  aws.Username <$> users = aws.Username <$> users' →
  aws.DisplayName <$> groups = aws.DisplayName <$> groups' →
  deleteUsers users s = deleteUsers users' s
  ∧ deleteGroups groups s = deleteGroups groups' s.
Proof.
  intros Hu Hg. split; [by apply deleteUsers_by_username | by apply deleteGroups_by_name].
Qed.

End Alternate.

Section Index.

Context {W : Type} `{!Client W}.
Local Abbreviation M := (M W).

Lemma confined_ret {A} index P (a : A) : confined index P (mret a : M A).
Proof.
  intros s Hs. split; [done|]. exists []. simpl. rewrite app_nil_r.
  split; [done | constructor].
Qed.

Lemma confined_raise {A} index P (e : error) : confined index P (raise e : M A).
Proof.
  intros s Hs. split; [done|]. exists []. simpl. rewrite app_nil_r.
  split; [done | constructor].
Qed.

Lemma confined_bind {A B} index P (m : M A) (f : A → M B) :
  confined index P m → (∀ a, confined index P (f a)) → confined index P (m ≫= f).
Proof.
  intros Hm Hf s Hs. rewrite bind_run.
  destruct (Hm s Hs) as (Hu1 & t1 & Hlog1 & Ht1).
  destruct (m s) as [s1 [e|a]]; simpl in *.
  - split; [done|]. exists t1. done.
  - destruct (Hf a s1 Hu1) as (Hu2 & t2 & Hlog2 & Ht2).
    split; [done|]. exists (t1 ++ t2). rewrite Hlog2, Hlog1, app_assoc.
    split; [done | by apply Forall_app].
Qed.

Lemma confined_call index (P : Call → Prop) c : P c → confined index P (call c).
Proof.
  intros Hc s Hs. rewrite call_run. simpl. split; [done|]. eexists. split; [done|].
  constructor; [done | constructor].
Qed.

Lemma confined_try index (P : Call → Prop) c : P c → confined index P (try c).
Proof.
  intros Hc s Hs. rewrite try_run. simpl. split; [done|]. eexists. split; [done|].
  constructor; [done | constructor].
Qed.

Lemma confined_foldM {A B} index P (body : B → A → M B) l b :
  (∀ b x, x ∈ l → confined index P (body b x)) → confined index P (foldM body l b).
Proof.
  revert b. induction l as [|x l IH]; intros b Hbody; simpl.
  - apply confined_ret.
  - apply confined_bind.
    + apply Hbody, elem_of_cons. by left.
    + intros b'. apply IH. intros b'' y Hy. apply Hbody, elem_of_cons. by right.
Qed.

Lemma confined_forEach {A} index P (l : list A) (body : A → M unit) :
  (∀ x, x ∈ l → confined index P (body x)) → confined index P (forEach l body).
Proof. intros Hbody. apply confined_foldM. intros _ x. apply Hbody. Qed.

Lemma confined_getUsersMap {B} index P (f : gmap string aws.User → M B) :
  confined index P (f index) → confined index P (getUsersMap ≫= f).
Proof.
  intros Hf s Hs. rewrite bind_run. unfold getUsersMap. rewrite Hs. by apply Hf.
Qed.

Lemma confined_syncGroup cfg index g :
  confined index (λ c, groupCall c = true ∧ indexed index c) (syncGroup cfg g).
Proof.
  unfold syncGroup. destruct (SyncGroups_skips cfg (admin.Email g)); [apply confined_ret|].
  apply confined_bind.
  { unfold findOrCreateGroup. apply confined_bind.
    - by apply (confined_call _ _ (FindGroupByDisplayName (admin.Email g))).
    - intros [[]|gg]; try apply confined_raise; [|apply confined_ret].
      by apply (confined_try _ _ (CreateGroup (aws.NewGroup (admin.Email g)))). }
  intros group. apply confined_bind.
  { by apply (confined_try _ _ (GoogleGetGroupMembers g)). }
  intros groupMembers. apply confined_getUsersMap.
  apply confined_forEach. intros [k u] Hin.
  apply elem_of_map_to_list in Hin.
  assert (∃ k, index !! k = Some u) as Hu by eauto.
  unfold syncMembership. apply confined_bind.
  { by apply (confined_try _ _ (IsUserInGroup u group)). }
  intros b. destruct (_ !! aws.Username u), b; try apply confined_ret.
  - by apply (confined_try _ _ (AddUserToGroup u group)).
  - by apply (confined_try _ _ (RemoveUserFromGroup u group)).
Qed.

(** X18: [SyncGroups] relies on the index [s.users] and leaves it as it
    is.  It only lists Google groups and their members, finds or creates
    AWS groups, and probes, adds and removes members; every such probe,
    addition and removal is about a user record of the index.  So it never
    looks a user up, never writes a user, never deletes a group, and with
    an empty index it touches no membership at all. *)
Theorem SyncGroups_works_from_the_index (cfg : Config) (query : string) (s : State W) :
  users (SyncGroups cfg query s).1 = users s
  ∧ ∃ t, log (SyncGroups cfg query s).1 = log s ++ t
         ∧ Forall (λ ev, groupCall ev.1 = true ∧ indexed (users s) ev.1) t.
Proof.
  assert (confined (users s) (λ c, groupCall c = true ∧ indexed (users s) c)
            (SyncGroups cfg query)) as H; [|by apply H].
  unfold SyncGroups. apply confined_bind.
  - by apply (confined_try _ _ (GoogleGetGroups query)).
  - intros groups. apply confined_forEach. intros g _. apply confined_syncGroup.
Qed.

(** *** The calls of [SyncUsers] *)

Lemma issues_call (P : Call → Prop) c : P c → issues P (call (W:=W) c).
Proof.
  intros Hc s. rewrite call_run. simpl. eexists. split; [done|].
  constructor; [done | constructor].
Qed.

Lemma issues_raise {A} (P : Call → Prop) e : issues P (raise e : M A).
Proof. intros s. exists []. simpl. rewrite app_nil_r. split; [done | constructor]. Qed.

Lemma issues_setUser (P : Call → Prop) k u : issues P (setUser (W:=W) k u).
Proof. intros s. exists []. simpl. rewrite app_nil_r. split; [done | constructor]. Qed.

(** X19: [SyncUsers] only lists the deleted and the active Google users
    and finds, creates, updates and deletes AWS users: it makes no call
    about a group. *)
Theorem SyncUsers_makes_user_calls_only (cfg : Config) (query : string) (s : State W) :
  ∃ t, log (SyncUsers cfg query s).1 = log s ++ t
       ∧ Forall (λ ev, userCall ev.1 = true) t.
Proof.
  revert s. change (issues (λ c, userCall c = true) (SyncUsers cfg query)).
  unfold SyncUsers. apply issues_bind; [by apply (issues_try _ GoogleGetDeletedUsers)|].
  intros deletedUsers. apply issues_bind.
  { apply issues_forEach. intros u _. unfold dropDeleted. apply issues_bind.
    - by apply (issues_call _ (FindUserByEmail (admin.PrimaryEmail u))).
    - intros [[]|uu]; try apply issues_raise; [apply issues_ret|].
      by apply (issues_try _ (DeleteUser uu)). }
  intros _. apply issues_bind; [by apply (issues_try _ (GoogleGetUsers query))|].
  intros googleUsers. apply issues_forEach. intros u _. unfold syncUser.
  destruct (ignoreUser cfg (admin.PrimaryEmail u)); [apply issues_ret|].
  apply issues_bind.
  { by apply (issues_call _ (FindUserByEmail (admin.PrimaryEmail u))). }
  intros [e|uu].
  - apply issues_bind; [by apply (issues_try _ (CreateUser (fromGoogle u)))|].
    intros uu. apply issues_setUser.
  - apply issues_bind; [apply issues_setUser|]. intros _.
    destruct (decide _); [|apply issues_ret].
    apply issues_bind; [|intros; apply issues_ret].
    by apply (issues_try _ (UpdateUser _)).
Qed.

(** *** The index [SyncUsers] builds *)

Section Coverage.

Context (cfg : Config) (I : W → Prop).
Hypothesis I_stable : stable I.
Hypothesis I_find :
  ∀ w email uu, I w → (handle (FindUserByEmail email) w).2 = inr uu →
                aws.Username uu = email.
Hypothesis I_create :
  ∀ w u uu, I w → (handle (CreateUser u) w).2 = inr uu →
            aws.Username uu = aws.Username u.

Lemma syncUser_indexes (u : admin.User) (s : State W) :
  I (world s) →
  I (world (syncUser cfg u s).1)
  ∧ dom (users s) ⊆ dom (users (syncUser cfg u s).1)
  ∧ ((syncUser cfg u s).2 = inr tt →
     ignoreUser cfg (admin.PrimaryEmail u) = false →
     admin.PrimaryEmail u ∈ dom (users (syncUser cfg u s).1)).
Proof.
  intros Hs. unfold syncUser.
  destruct (ignoreUser cfg (admin.PrimaryEmail u)) eqn:Hign; [done|].
  rewrite bind_run, call_after.
  pose proof (I_stable (FindUserByEmail (admin.PrimaryEmail u)) _ Hs) as Hs1.
  pose proof (I_find (world s) (admin.PrimaryEmail u)) as Hfind.
  unfold after.
  destruct (handle (FindUserByEmail (admin.PrimaryEmail u)) (world s)) as [w1 [e|uu]];
    simpl in *.
  - rewrite bind_run, try_after. unfold after. simpl.
    pose proof (I_stable (CreateUser (fromGoogle u)) _ Hs1) as Hs2.
    pose proof (I_create w1 (fromGoogle u)) as Hcreate.
    destruct (handle (CreateUser (fromGoogle u)) w1) as [w2 [e'|uu]]; simpl in *.
    + done.
    + rewrite (Hcreate uu) by done. simpl. rewrite dom_insert.
      split; [done|]. split; [|intros _ _]; set_solver.
  - rewrite (Hfind uu) by done. rewrite bind_run. unfold setUser. cbv beta iota.
    destruct (decide (aws.Active uu = admin.Suspended u)).
    + rewrite bind_run, try_after. unfold after. simpl.
      match goal with
      | |- context [handle (UpdateUser ?r) w1] =>
          pose proof (I_stable (UpdateUser r) _ Hs1) as Hs2;
          destruct (handle (UpdateUser r) w1) as [w2 [e'|?]]
      end; simpl in *;
        (split; [done|]); rewrite dom_insert; (split; [|intros _ _]); set_solver.
    + simpl. split; [done|]. rewrite dom_insert. split; [|intros _ _]; set_solver.
Qed.

Lemma syncUsers_index (l : list admin.User) (s : State W) :
  I (world s) →
  dom (users s) ⊆ dom (users (forEach l (syncUser cfg) s).1)
  ∧ ((forEach l (syncUser cfg) s).2 = inr tt →
     ∀ u, u ∈ l → ignoreUser cfg (admin.PrimaryEmail u) = false →
          admin.PrimaryEmail u ∈ dom (users (forEach l (syncUser cfg) s).1)).
Proof.
  revert s. unfold forEach. induction l as [|x l IH]; intros s Hs.
  - split; [done|]. intros _ u Hu. by apply elem_of_nil in Hu.
  - cbn [foldM]. rewrite bind_run.
    destruct (syncUser_indexes x s Hs) as (Hs1 & Hmono & Hx).
    destruct (syncUser cfg x s) as [s1 [e|[]]]; simpl in *; [done|].
    destruct (IH s1 Hs1) as [Hmono' Hrest].
    split; [by etrans|].
    intros Hok u Hu Hign. apply elem_of_cons in Hu as [->|Hu].
    + apply Hmono'. by apply Hx.
    + by apply Hrest.
Qed.

End Coverage.

(** X16: when the target answers a look-up with a record whose username is
    the e-mail asked for, and a creation with a record of the username sent
    (in the worlds the run can reach), then after the user loop of
    [SyncUsers] has run without error the index [s.users] has an entry under
    the primary e-mail of every user of the loop that is not ignored; and
    the loop never drops an entry of the index. *)
Theorem SyncUsers_loop_indexes_every_user (cfg : Config) (I : W → Prop)
    (googleUsers : list admin.User) (s : State W) :
  stable I → I (world s) →
  (∀ w email uu, I w → (handle (FindUserByEmail email) w).2 = inr uu →
                 aws.Username uu = email) →
  (∀ w u uu, I w → (handle (CreateUser u) w).2 = inr uu →
             aws.Username uu = aws.Username u) →
  (forEach googleUsers (syncUser cfg) s).2 = inr tt →
  dom (users s) ⊆ dom (users (forEach googleUsers (syncUser cfg) s).1)
  ∧ ∀ u, u ∈ googleUsers → ignoreUser cfg (admin.PrimaryEmail u) = false →
         admin.PrimaryEmail u ∈ dom (users (forEach googleUsers (syncUser cfg) s).1).
Proof.
  intros Hst Hs Hfind Hcreate Hok.
  destruct (syncUsers_index cfg I Hst Hfind Hcreate googleUsers s Hs) as [Hmono Hall].
  split; [done | by apply Hall].
Qed.

End Index.

(** * Runs of the further properties on the scenarios *)

(** A table never changes: the worlds equal to a given table are stable. *)
Lemma Table_stable (d : Table) : stable (λ w : Table, w = d).
Proof. intros c w ->. reflexivity. Qed.


(** In [staleListing] the only address that resolves is Ann's primary
    e-mail. *)
Lemma getGoogleGroupsAndUsers_unique_witness :
  ifReturning (λ res, NoDup (admin.PrimaryEmail <$> res.1))
              (getGoogleGroupsAndUsers noLists [eng] (start (serve staleListing))).2.
Proof.
  apply (getGoogleGroupsAndUsers_unique_when_addresses_are_primary
           noLists (λ w, w = serve staleListing)).
  - apply Table_stable.
  - reflexivity.
  - intros w address u0 us -> Hr. simpl in Hr.
    destruct (decide _) as [Heq|]; [|done].
    injection Hr as <- _. injection Heq as Heq. simpl in Heq. by subst.
Defined.

(** In [staleListing] no look-up finds anybody. *)
Lemma dropDeleted_skips_user_not_found_witness :
  forEach [ann] dropDeleted (start (serve staleListing))
  = forEach [] dropDeleted (after (FindUserByEmail "a@x.com") (start (serve staleListing))).
Proof.
  exact (dropDeleted_skips_user_not_found ann [] (start (serve staleListing)) eq_refl).
Defined.


(** Cy is found active and is suspended at the source. *)
Lemma syncUser_updates_with_source_attributes_witness :
  syncUser noLists cy (start (serve suspendedAtSource))
  = (mkState (serve suspendedAtSource)
       [ (FindUserByEmail "c@x.com", None);
         (UpdateUser (aws.mkUser "u-3" "c@x.com" "Cy" "Dee" false), None) ]
       {["c@x.com" := cyAws]},
     inr tt).
Proof.
  exact (syncUser_updates_with_source_attributes noLists cy cyAws
           (start (serve suspendedAtSource)) eq_refl eq_refl eq_refl).
Defined.

(** The target of [suspendedAtSource] answers with the usernames asked for. *)
Lemma SyncUsers_loop_indexes_every_user_witness :
  dom (users (start (serve suspendedAtSource)))
    ⊆ dom (users (forEach [cy] (syncUser noLists) (start (serve suspendedAtSource))).1)
  ∧ ∀ u, u ∈ [cy] → ignoreUser noLists (admin.PrimaryEmail u) = false →
         admin.PrimaryEmail u
           ∈ dom (users (forEach [cy] (syncUser noLists)
                           (start (serve suspendedAtSource))).1).
Proof.
  apply (SyncUsers_loop_indexes_every_user noLists (λ w, w = serve suspendedAtSource)).
  - apply Table_stable.
  - reflexivity.
  - intros w email uu -> Hr. simpl in Hr. unfold findIn in Hr.
    rewrite filter_cons, filter_nil in Hr.
    destruct (decide _) as [Heq|]; [|done]. by injection Hr as <-.
  - intros w u uu -> Hr. simpl in Hr. by injection Hr as <-.
  - reflexivity.
Defined.

(** [noLists] has no include-list. *)
Lemma SyncGroups_without_include_list_witness :
  SyncGroups noLists "" (start (serve suspendedAtSource))
  = (after (GoogleGetGroups "") (start (serve suspendedAtSource)), inr tt).
Proof.
  exact (SyncGroups_without_include_list noLists "" (start (serve suspendedAtSource))
           eq_refl).
Defined.

(** The records of the diff and the records of the listing have the same
    keys. *)
Lemma deleting_steps_go_by_key_witness :
  deleteUsers [aws.NewUser "Bob" "Ray" "b@x.com" true] (start (serve suspendedAtSource))
  = deleteUsers [bobAws] (start (serve suspendedAtSource))
  ∧ deleteGroups [aws.NewGroup "eng"] (start (serve suspendedAtSource))
    = deleteGroups [engAws] (start (serve suspendedAtSource)).
Proof.
  exact (deleting_steps_go_by_key [aws.NewUser "Bob" "Ray" "b@x.com" true] [bobAws]
           [aws.NewGroup "eng"] [engAws] (start (serve suspendedAtSource))
           eq_refl eq_refl).
Defined.
